(** * Accessibility route segmentation and scoring engine

    A shallow embedding of the route engine of
    [frontend/app/components/map.tsx] (haversine, estimateTime, classifySeg,
    buildResult, calcRoute, doRoute) and of the report controller
    [backend/src/controllers/reports.js] (createReport).

    Numbers: a JavaScript [number] that holds a coordinate, a distance or a
    ratio is modelled as a real number of [R]; IEEE rounding, NaN and the
    infinities are outside the model.  Array lengths, loop indices and
    segment counts are natural numbers, as they are in the code. *)

From Stdlib Require Import String Ascii DecimalString QArith.
From Stdlib Require Import Reals Lra Lia List Arith Bool.
Import ListNotations.

Close Scope Q_scope.
Open Scope R_scope.

(** ** Geometry *)

(** A coordinate is the pair [[lat, lng]] of the code's [[number,number]]. *)
Definition coord : Type := (R * R)%type.

(** [x < y] on numbers, as a boolean. *)
Definition Rltb (x y : R) : bool := if Rlt_dec x y then true else false.

(** [Math.atan2(y, x)] on real arguments. *)
Definition atan2 (y x : R) : R :=
  if Rlt_dec 0 x then atan (y / x)
  else if Rlt_dec x 0 then
         (if Rle_dec 0 y then atan (y / x) + PI else atan (y / x) - PI)
  else if Rlt_dec 0 y then PI / 2
  else if Rlt_dec y 0 then - (PI / 2)
  else 0.

(** map.tsx, lines 132-137, on real numbers.  In double arithmetic [x] can
    round just above 1 for antipodal points, where the code returns NaN, and
    the result is periodic in the longitude only up to rounding. *)
Definition haversine (a b : coord) : R :=
  let R0 := 6371000 in
  let dLa := ((fst b - fst a) * PI) / 180 in
  let dLo := ((snd b - snd a) * PI) / 180 in
  let la1 := (fst a * PI) / 180 in
  let la2 := (fst b * PI) / 180 in
  let x := sin (dLa / 2) ^ 2 + cos la1 * cos la2 * sin (dLo / 2) ^ 2 in
  R0 * 2 * atan2 (sqrt x) (sqrt (1 - x)).

(** The value [x] of [haversine], the argument of its two square roots. *)
Definition haversineArg (a b : coord) : R :=
  sin (((fst b - fst a) * PI) / 180 / 2) ^ 2
  + cos ((fst a * PI) / 180) * cos ((fst b * PI) / 180)
    * sin (((snd b - snd a) * PI) / 180 / 2) ^ 2.

(** ** Data model (map.tsx, lines 15-19) *)

(** [RouteSegment['accessibility']]. *)
Inductive Accessibility : Type := safe | caution | hazard.

(** [HazardPoint['type']], the severity of a hazard point. *)
Inductive Severity : Type := sev_hazard | sev_caution | sev_info.

(** [IssueReport['type']]. *)
Inductive IssueType : Type :=
  blocked_path | broken_ramp | pothole | wet_floor | no_elevator | other.

Record HazardPoint : Type := mkHazardPoint {
  hp_lat : R;
  hp_lng : R;
  hp_type : Severity;
  hp_category : string;
  hp_icon : string;
  hp_description : string }.

Record IssueReport : Type := mkIssueReport {
  ir_id : string;
  ir_lat : R;
  ir_lng : R;
  ir_type : IssueType;
  ir_description : string;
  ir_timestamp : string;
  ir_photoDataUrl : option string }.

Record RouteSegment : Type := mkRouteSegment {
  coordinates : list coord;
  accessibility : Accessibility;
  surface : string;
  description : string }.

Record RouteResult : Type := mkRouteResult {
  segments : list RouteSegment;
  totalDistance : R;
  estimatedTime : R;
  warnings : list string;
  elevationProfile : list (R * R) }.

(** [L.LatLng]. *)
Record LatLng : Type := latLng { ll_lat : R; ll_lng : R }.

Definition Accessibility_eqb (a b : Accessibility) : bool :=
  match a, b with
  | safe, safe | caution, caution | hazard, hazard => true
  | _, _ => false
  end.

(** The string a report's [type] holds. *)
Definition issueTypeName (t : IssueType) : string :=
  match t with
  | blocked_path => "blocked_path"
  | broken_ramp => "broken_ramp"
  | pothole => "pothole"
  | wet_floor => "wet_floor"
  | no_elevator => "no_elevator"
  | other => "other"
  end.

(** ** Time estimate (map.tsx, lines 139-143) *)

(** [segs.filter(s=>s.accessibility===t).length]. *)
Definition countTag (t : Accessibility) (segs : list RouteSegment) : nat :=
  length (filter (fun s => Accessibility_eqb (accessibility s) t) segs).

(** The ratios [sr], [cr], [hr] of [estimateTime]. *)
Definition tagRatio (t : Accessibility) (segs : list RouteSegment) : R :=
  INR (countTag t segs) / INR (length segs).

(** [sr*1.0+cr*0.65+hr*0.35]. *)
Definition speedFactor (segs : list RouteSegment) : R :=
  tagRatio safe segs * 1.0 + tagRatio caution segs * 0.65 + tagRatio hazard segs * 0.35.

Definition estimateTime (dist : R) (segs : list RouteSegment) : R :=
  if Nat.eqb (length segs) 0 then dist / 1.0
  else dist / Rmax (speedFactor segs) 0.2.

(** ** Classification (map.tsx, lines 145-148) *)

(** [h.type==='hazard'?'hazard':h.type==='caution'?'caution':'safe']. *)
Definition tagOfSeverity (t : Severity) : Accessibility :=
  match t with
  | sev_hazard => hazard
  | sev_caution => caution
  | sev_info => safe
  end.

(** [haversine(c,[h.lat,h.lng])<30]. *)
Definition near (c : coord) (h : HazardPoint) : bool :=
  Rltb (haversine c (hp_lat h, hp_lng h)) 30.

(** The inner loop [for(const c of coords)] for one hazard [h]: [Some tag]
    when it returns, [None] when it runs to its end. *)
Fixpoint scanCoords (h : HazardPoint) (coords : list coord) : option Accessibility :=
  match coords with
  | [] => None
  | c :: cs => if near c h then Some (tagOfSeverity (hp_type h)) else scanCoords h cs
  end.

Fixpoint classifySeg (coords : list coord) (hazards : list HazardPoint) : Accessibility :=
  match hazards with
  | [] => safe
  | h :: hs =>
      match scanCoords h coords with
      | Some tag => tag
      | None => classifySeg coords hs
      end
  end.

(** ** Segmentation and scoring (map.tsx, lines 150-166) *)

Section Segmenter.
Context {A B : Type}.

(** [l.slice(i, j)] for [0 <= i] and [0 <= j]. *)
Definition slice (i j : nat) (l : list A) : list A := firstn (j - i) (skipn i l).

(** The loop [for(let i=0;i<coords.length-1;i+=chunk)] from index [i], with
    [mk sl] the value pushed for a retained slice [sl].  The test
    [i < coords.length-1] is written [S i <? length coords]; [fuel] bounds
    the number of iterations. *)
Fixpoint segLoop (mk : list A -> B) (fuel i chunk : nat) (coords : list A) : list B :=
  match fuel with
  | O => []
  | S fuel' =>
      if S i <? length coords then
        let sl := slice i (Nat.min (i + chunk + 1) (length coords)) coords in
        if length sl <? 2 then segLoop mk fuel' (i + chunk) chunk coords
        else mk sl :: segLoop mk fuel' (i + chunk) chunk coords
      else []
  end.
End Segmenter.

(** The slice the loop takes at index [i]. *)
Definition sliceAt {A : Type} (coords : list A) (chunk i : nat) : list A :=
  slice i (Nat.min (i + chunk + 1) (length coords)) coords.

(** [n=Math.min(10,Math.max(3,Math.floor(len/5)))]. *)
Definition chunkCount (len : nat) : nat := Nat.min 10 (Nat.max 3 (len / 5)).

(** [chunk=Math.ceil(len/n)]; [n] is at least 3. *)
Definition chunkSize (len : nat) : nat :=
  let n := chunkCount len in (len + n - 1) / n.

(** The slices the loop of [buildResult] retains, in order. *)
Definition chunks {A : Type} (coords : list A) : list (list A) :=
  segLoop (fun sl => sl) (length coords) 0 (chunkSize (length coords)) coords.

(** Concatenation of chunks that drops the first point of every chunk after
    the first. *)
Definition rejoin {A : Type} (cs : list (list A)) : list A :=
  match cs with
  | [] => []
  | c :: rest => c ++ flat_map (@tl A) rest
  end.

Definition mkSegment (hazards : list HazardPoint) (sl : list coord) : RouteSegment :=
  let acc := classifySeg sl hazards in
  {| coordinates := sl;
     accessibility := acc;
     surface := match acc with safe => "Paved" | _ => "Unknown" end;
     description := match acc with
                    | safe => "Clear accessible path"
                    | caution => "Proceed carefully"
                    | hazard => "Accessibility barrier"
                    end |}.

(** The template literal [${k}] of a count. *)
Definition showNat (k : nat) : string := NilEmpty.string_of_uint (Nat.to_uint k).

Definition hazardLine (hc : nat) : string :=
  "⚠️ " ++ showNat hc ++ " accessibility barrier" ++ (if 1 <? hc then "s" else "")
    ++ " on this route".

Definition cautionLine (cc : nat) : string :=
  "🔶 " ++ showNat cc ++ " caution area" ++ (if 1 <? cc then "s" else "")
    ++ " — proceed with care".

Definition genericAdvisory : string := "Verify accessibility features on ground".

(** Lines 159-163: the warnings of a list of segments. *)
Definition buildWarnings (segs : list RouteSegment) : list string :=
  let hc := countTag hazard segs in
  let cc := countTag caution segs in
  let warns := [] in
  let warns := if negb (Nat.eqb hc 0) then warns ++ [hazardLine hc] else warns in
  let warns := if negb (Nat.eqb cc 0) then warns ++ [cautionLine cc] else warns in
  warns ++ [genericAdvisory].

Definition buildResult (coords : list coord) (dist : R) (hazards : list HazardPoint)
  : RouteResult :=
  let chunk := chunkSize (length coords) in
  let segs := segLoop (mkSegment hazards) (length coords) 0 chunk coords in
  {| segments := segs;
     totalDistance := dist;
     estimatedTime := estimateTime dist segs;
     warnings := buildWarnings segs;
     elevationProfile :=
       map (fun i => ((INR i / INR (length coords)) * dist, 780 + sin (INR i * 0.3) * 15))
           (seq 0 (length coords)) |}.

(** ** Routing (map.tsx, lines 168-183 and 776-782) *)

(** What the request to the routing provider gives: [OsrmRoute g d] is a reply
    with [routes[0].geometry.coordinates = g] (pairs [[lng, lat]]) and
    [routes[0].distance = d]; [OsrmFail] is every path into the [catch]. *)
Inductive OsrmReply : Type :=
  | OsrmFail
  | OsrmRoute (geometry : list (R * R)) (distance : R).

(** The coordinates the [catch] branch builds.  The interpolated points are
    real numbers here: that the first leg ends exactly on the middle latitude
    and the second exactly on end's longitude holds in this model, and in
    double arithmetic only up to rounding. *)
Definition fallbackCoords (start end_ : LatLng) : list coord :=
  let mid := (ll_lat start + ll_lat end_) / 2 in
  let leg1 := map (fun i => let t := INR i / 12 in
                            (ll_lat start + (mid - ll_lat start) * t, ll_lng start))
                  (seq 0 13) in
  let leg2 := map (fun i => let t := INR i / 12 in
                            (mid, ll_lng start + (ll_lng end_ - ll_lng start) * t))
                  (seq 0 13) in
  leg1 ++ leg2 ++ [(ll_lat end_, ll_lng end_)].

Section Routing.
(** Leaflet's [LatLng.distanceTo], a function of the library. *)
Variable distanceTo : LatLng -> LatLng -> R.

Definition calcRoute (reply : OsrmReply) (start end_ : LatLng)
           (hazards : list HazardPoint) : RouteResult :=
  match reply with
  | OsrmRoute geometry distance =>
      let coords := map (fun c => (snd c, fst c)) geometry in
      buildResult coords distance hazards
  | OsrmFail =>
      buildResult (fallbackCoords start end_) (distanceTo start end_ * 1.25) hazards
  end.

(** A report as a hazard point, as [doRoute] builds it. *)
Definition hazardOfReport (r : IssueReport) : HazardPoint :=
  {| hp_lat := ir_lat r; hp_lng := ir_lng r; hp_type := sev_hazard;
     hp_category := issueTypeName (ir_type r); hp_icon := "📌";
     hp_description := ir_description r |}.

Definition combined (aPoints : list HazardPoint) (reports : list IssueReport)
  : list HazardPoint := aPoints ++ map hazardOfReport reports.

(** [doRoute] with both end points set: the result handed to [setRoute]. *)
Definition doRoute (reply : OsrmReply) (aPoints : list HazardPoint)
           (reports : list IssueReport) (startPoint endPoint : LatLng) : RouteResult :=
  calcRoute reply (latLng (ll_lat startPoint) (ll_lng startPoint))
            (latLng (ll_lat endPoint) (ll_lng endPoint)) (combined aPoints reports).
End Routing.

(** ** The static catalog (map.tsx, lines 25 and 70-95) *)

Definition KU_CENTER : LatLng := latLng 27.6196 85.5385.

Definition getKUAccessibilityPoints : list HazardPoint :=
  let c_lat := ll_lat KU_CENTER in
  let c_lng := ll_lng KU_CENTER in
  [
    mkHazardPoint (c_lat + 0.0010) (c_lng + 0.0005) sev_info "ramp" "♿"
      "Accessible ramp — Main Gate entrance";
    mkHazardPoint (c_lat - 0.0015) (c_lng - 0.0010) sev_info "ramp" "♿"
      "Ramp at School of Engineering";
    mkHazardPoint (c_lat + 0.0005) (c_lng - 0.0020) sev_info "ramp" "♿"
      "Accessible ramp — Central Library";
    mkHazardPoint (c_lat + 0.0020) (c_lng + 0.0015) sev_info "elevator" "🛗"
      "Elevator — School of Management (3F)";
    mkHazardPoint (c_lat + 0.0020) (c_lng + 0.0015) sev_info "elevator" "🛗"
      "Elevator — School of Management (3F)";
    mkHazardPoint (c_lat - 0.0005) (c_lng + 0.0025) sev_info "elevator" "🛗"
      "Elevator — Admin Block";
    mkHazardPoint (c_lat + 0.0000) (c_lng + 0.0010) sev_info "washroom" "🚻"
      "Accessible washroom near canteen";
    mkHazardPoint (c_lat - 0.0008) (c_lng - 0.0030) sev_info "washroom" "🚻"
      "Accessible WC — Medical Block";
    mkHazardPoint (c_lat + 0.0018) (c_lng - 0.0005) sev_info "bench" "🪑"
      "Rest bench — amphitheatre area";
    mkHazardPoint (c_lat - 0.0012) (c_lng + 0.0018) sev_info "bench" "🪑"
      "Shaded bench — garden path";
    mkHazardPoint (c_lat + 0.0025) (c_lng - 0.0012) sev_info "tactile_paving" "⬛"
      "Tactile paving — main corridor";
    mkHazardPoint (c_lat + 0.0008) (c_lng + 0.0030) sev_hazard "pothole" "🕳️"
      "Large pothole — eastern campus road";
    mkHazardPoint (c_lat - 0.0020) (c_lng + 0.0008) sev_hazard "pothole" "🕳️"
      "Uneven surface — back road to hostel";
    mkHazardPoint (c_lat + 0.0030) (c_lng - 0.0018) sev_hazard "stairs" "🪜"
      "Stairs only — Science Block side entrance";
    mkHazardPoint (c_lat - 0.0025) (c_lng - 0.0015) sev_hazard "stairs" "🪜"
      "Steep stairs — IT Building rear exit";
    mkHazardPoint (c_lat + 0.0012) (c_lng + 0.0020) sev_hazard "broken_ramp" "⚠️"
      "Broken ramp surface — Sports Complex";
    mkHazardPoint (c_lat - 0.0030) (c_lng + 0.0005) sev_hazard "construction" "🚧"
      "Construction zone — New Academic Block";
    mkHazardPoint (c_lat + 0.0005) (c_lng - 0.0012) sev_caution "narrow_path" "↔️"
      "Narrow pathway — E-Block to cafeteria";
    mkHazardPoint (c_lat - 0.0018) (c_lng + 0.0030) sev_caution "narrow_path" "↔️"
      "Tight passage — Civil Engineering Dept";
    mkHazardPoint (c_lat + 0.0022) (c_lng + 0.0000) sev_caution "wet_floor" "💧"
      "Flood-prone walkway — basketball court";
    mkHazardPoint (c_lat - 0.0010) (c_lng - 0.0025) sev_caution "no_elevator" "🚫"
      "No elevator — Pharmacy Building (3F)"
  ].

(** ** Report creation (backend/src/controllers/reports.js) *)

Module Backend.

(** A JavaScript number of a request body: NaN or a finite value. *)
Inductive JsNumber : Type := NaN | Num (q : Q).

(** The values a parsed request body holds. [JsObj] is any object or array. *)
Inductive JsValue : Type :=
  | JsUndefined
  | JsNull
  | JsBool (b : bool)
  | JsNum (x : JsNumber)
  | JsStr (s : string)
  | JsObj.

(** JavaScript's ToBoolean: what [!v] tests. *)
Definition truthy (v : JsValue) : bool :=
  match v with
  | JsUndefined | JsNull => false
  | JsBool b => b
  | JsNum NaN => false
  | JsNum (Num q) => negb (Qeq_bool q 0)
  | JsStr s => negb (String.eqb s "")
  | JsObj => true
  end.

(** The fields [createReport] reads from [req.body]; an absent field is
    [JsUndefined]. *)
Record ReqBody : Type := mkReqBody {
  user_id : JsValue;
  issue_type : JsValue;
  description : JsValue;
  lat : JsValue;
  lng : JsValue }.

(** [req]: the body and the uploaded photo's [filename], if a file came. *)
Record Request : Type := mkRequest {
  body : ReqBody;
  file : option string }.

(** services/photoService.js, [getUrl]. *)
Definition getUrl (filename : string) : JsValue :=
  if String.eqb filename "" then JsNull else JsStr ("/uploads/" ++ filename).

(** The JSON body of a reply: [{error}] or [{report}] (the first returned
      row, if there is one). *)
Inductive Json (Row : Type) : Type :=
    | ErrorJson (error : string)
    | ReportJson (report : option Row).

Arguments ErrorJson {Row} error.
Arguments ReportJson {Row} report.

Record Response (Row : Type) : Type := mkResponse { status : nat; json : Json Row }.

Arguments mkResponse {Row} status json.
Arguments status {Row} r.
Arguments json {Row} r.

(** What a call leaves behind: the store, the parameter lists of the
      queries it issued, and the response it sent. *)
Record Outcome (Store Row : Type) : Type := mkOutcome {
    store : Store;
    queries : list (list JsValue);
    response : Response Row }.

Arguments mkOutcome {Store Row} store queries response.
Arguments store {Store Row} o.
Arguments queries {Store Row} o.
Arguments response {Store Row} o.

Section Controller.
(** The report store behind [pool] and the rows it returns. *)
Context {Store Row : Type}.

(** [pool.query] of the INSERT statement with the given parameters: the
      store afterwards and [Some rows], or [None] when the query throws. *)
Variable pool_query : Store -> list JsValue -> Store * option (list Row).

Definition createReport (st : Store) (req : Request) : Outcome Store Row :=
    let b := body req in
    let photo := file req in
    if negb (truthy (issue_type b)) || negb (truthy (description b))
       || negb (truthy (lat b)) || negb (truthy (lng b))
    then mkOutcome st [] (mkResponse 400 (ErrorJson "Missing required fields"))
    else
      let photo_url := match photo with
                       | Some filename => getUrl filename
                       | None => JsNull
                       end in
      let params := [ (if truthy (user_id b) then user_id b else JsNull);
                      issue_type b; description b; photo_url; lng b; lat b ] in
      match pool_query st params with
      | (st', Some rows) =>
          mkOutcome st' [params] (mkResponse 201 (ReportJson (nth_error rows 0)))
      | (st', None) =>
          mkOutcome st' [params] (mkResponse 500 (ErrorJson "Failed to create report"))
      end.
End Controller.

(** The test of line 8 of reports.js. *)
Definition missingField (b : ReqBody) : bool :=
    negb (truthy (issue_type b)) || negb (truthy (description b))
    || negb (truthy (lat b)) || negb (truthy (lng b)).

(** Whether a value is a number other than NaN. *)
Definition isNumber (v : JsValue) : bool :=
    match v with
    | JsNum (Num _) => true
    | _ => false
    end.

(** A store for the examples: the parameter lists of the rows inserted so
      far.  Like a [double precision] column it takes coordinates that are
      numbers and throws on any other value. *)
Definition sampleQuery (st : list (list JsValue)) (params : list JsValue)
    : list (list JsValue) * option (list (list JsValue)) :=
    if isNumber (nth 4 params JsUndefined) && isNumber (nth 5 params JsUndefined)
    then (st ++ [params], Some [params])
    else (st, None).

Definition textCoordinates : Request :=
    mkRequest (mkReqBody JsUndefined (JsStr "pothole") (JsStr "Deep hole at the gate")
                         (JsStr "abc") (JsStr "def")) None.

Definition missingLat : Request :=
    mkRequest (mkReqBody JsUndefined (JsStr "pothole") (JsStr "Deep hole at the gate")
                         JsUndefined (JsNum (Num (855385 # 10000)))) None.

End Backend.

(** ** Report storage (map.tsx, lines 189-194) *)

(** What [localStorage] holds under [STORAGE_KEY] (map.tsx, lines 26 and
    189-194), by what [getReports] makes of it: no item or the empty string,
    a text on which [JSON.parse] throws, or the JSON text of an array of
    reports.  A text that parses to anything else is outside the model (the
    code never writes one), and so is a [localStorage] whose [setItem]
    throws. *)
Inductive StoredItem : Type :=
  | ItemMissing
  | ItemUnparsable
  | ItemReports (all : list IssueReport).

(** The argument of [saveReport]: a report without [id] and [timestamp]. *)
Record ReportDraft : Type := mkReportDraft {
  rd_lat : R;
  rd_lng : R;
  rd_type : IssueType;
  rd_description : string;
  rd_photoDataUrl : option string }.

Definition getReports (item : StoredItem) : list IssueReport :=
  match item with
  | ItemReports all => all
  | ItemMissing | ItemUnparsable => []
  end.

(** [saveReport]; [id] stands for [Math.random().toString(36).substr(2,9)]
    and [timestamp] for [new Date().toISOString()].  The result is the item
    written and the report returned. *)
Definition saveReport (id timestamp : string) (r : ReportDraft) (item : StoredItem)
  : StoredItem * IssueReport :=
  let nr := {| ir_id := id; ir_lat := rd_lat r; ir_lng := rd_lng r; ir_type := rd_type r;
               ir_description := rd_description r; ir_timestamp := timestamp;
               ir_photoDataUrl := rd_photoDataUrl r |} in
  let all := getReports item in
  (ItemReports (all ++ [nr]), nr).

Definition deleteReport (id : string) (item : StoredItem) : StoredItem :=
  ItemReports (filter (fun r => negb (String.eqb (ir_id r) id)) (getReports item)).

(** ** Route panel (map.tsx, lines 402-407 and 492) *)

(** [Math.round] on a real number: the nearest integer, halves upwards. *)
Definition Math_round (x : R) : Z := Int_part (x + 0.5).

(** [n=route.segments.length||1] of [RoutePanel] (map.tsx, line 402). *)
Definition panelCount (segs : list RouteSegment) : nat :=
  if Nat.eqb (length segs) 0 then 1%nat else length segs.

(** The percentages [sp], [cp], [hp] (map.tsx, lines 403-405). *)
Definition tagPercent (t : Accessibility) (segs : list RouteSegment) : Z :=
  Math_round (INR (countTag t segs) / INR (panelCount segs) * 100).

(** The headline [ol] (map.tsx, line 407). *)
Definition overallLabel (segs : list RouteSegment) : string :=
  if (30 <? tagPercent hazard segs)%Z then "Difficult Route"
  else if (40 <? tagPercent caution segs)%Z then "Moderate Access"
  else "Fully Accessible".

(** The double quote character, as a string. *)
Definition dquote : string := String (ascii_of_nat 34) EmptyString.

(** The track points of the GPX export (map.tsx, line 492), one string per
    coordinate of every segment; [showNumber] is the text a template literal
    gives a number. *)
Definition gpxPoints (showNumber : R -> string) (route : RouteResult) : list string :=
  map (fun c => ("<trkpt lat=" ++ dquote ++ showNumber (fst c) ++ dquote ++ " lon=" ++ dquote
                 ++ showNumber (snd c) ++ dquote ++ "><ele>780</ele></trkpt>")%string)
      (flat_map coordinates (segments route)).

(** ** Auxiliary definitions *)

(** The weight [estimateTime] gives a tag. *)
Definition tagWeight (t : Accessibility) : R :=
  match t with
  | safe => 1.0
  | caution => 0.65
  | hazard => 0.35
  end.

(** The severity order [hazard > caution > safe], as a rank. *)
Definition tagRank (t : Accessibility) : nat :=
  match t with
  | safe => 0
  | caution => 1
  | hazard => 2
  end.

(** The sum of the weights of the segments' tags. *)
Definition weightSum (segs : list RouteSegment) : R :=
  fold_right (fun s acc => tagWeight (accessibility s) + acc) 0 segs.

(** ** Sample data *)

Definition path7 : list coord :=
  [(0, 0); (0, 1); (0, 2); (0, 3); (0, 4); (0, 5); (0, 6)].

Definition origin : coord := (0, 0).
Definition antimeridian : coord := (0, 180).

Definition hazardAt (c : coord) (t : Severity) : HazardPoint :=
  mkHazardPoint (fst c) (snd c) t "pothole" "📌" "sample point".

Definition rampPoint : coord := (27.6206, 85.5390).

Definition reportAtRamp : IssueReport :=
  mkIssueReport "k3j9x2m1p" 27.6206 85.5390 pothole "Pothole next to the ramp"
                "2025-01-01T00:00:00.000Z" None.

Definition rampChunk : list coord := [rampPoint].
Definition rampHazards : list HazardPoint := combined getKUAccessibilityPoints [reportAtRamp].
Definition sampleHazards : list HazardPoint :=
  [hazardAt antimeridian sev_info; hazardAt origin sev_caution; hazardAt origin sev_hazard].

Definition segOf (t : Accessibility) : RouteSegment :=
  mkRouteSegment [origin; antimeridian] t "Unknown" "sample segment".

Definition path6 : list coord :=
  [origin; origin; origin; origin; antimeridian; antimeridian].

Definition hazards6 : list HazardPoint :=
  [hazardAt origin sev_hazard; hazardAt antimeridian sev_caution].

Definition kuStart : LatLng := latLng 27.6196 85.5385.
Definition kuEnd : LatLng := latLng 27.6200 85.5395.

(** [distanceTo] as the great-circle distance of the two points. *)
Definition haversineLatLng (a b : LatLng) : R :=
  haversine (ll_lat a, ll_lng a) (ll_lat b, ll_lng b).

(** A provider reply for the examples: seven points as [[lng, lat]] pairs. *)
Definition sampleGeometry : list (R * R) :=
  [(85.5385, 27.6196); (85.5386, 27.6196); (85.5387, 27.6197); (85.5388, 27.6197);
   (85.5389, 27.6198); (85.5390, 27.6199); (85.5391, 27.6200)].

Definition draftAtOrigin : ReportDraft :=
  mkReportDraft 0 0 broken_ramp "Ramp surface broken" None.

Definition storedSample : StoredItem :=
  ItemReports [reportAtRamp].

(** * Properties *)

(** ** Geometry *)

Lemma Rltb_true (x y : R) : x < y -> Rltb x y = true.
Proof. intros H; unfold Rltb; destruct (Rlt_dec x y); [reflexivity | contradiction]. Qed.

Lemma Rltb_false (x y : R) : y <= x -> Rltb x y = false.
Proof. intros H; unfold Rltb; destruct (Rlt_dec x y); [lra | reflexivity]. Qed.

Lemma Rltb_spec (x y : R) : Rltb x y = true <-> x < y.
Proof.
  unfold Rltb; destruct (Rlt_dec x y); split; intros; try reflexivity;
    try assumption; try discriminate; contradiction.
Qed.

Lemma atan2_0_1 : atan2 0 1 = 0.
Proof.
  unfold atan2. destruct (Rlt_dec 0 1) as [_ | H]; [| lra].
  replace (0 / 1) with 0 by field. exact atan_0.
Qed.

Lemma atan2_1_0 : atan2 1 0 = PI / 2.
Proof.
  unfold atan2.
  destruct (Rlt_dec 0 0) as [H | _]; [lra |].
  destruct (Rlt_dec 0 1) as [_ | H]; [reflexivity | lra].
Qed.

Lemma sin_sq_neg (t : R) : sin (- t) ^ 2 = sin t ^ 2.
Proof. rewrite sin_neg. ring. Qed.

Lemma haversine_sym_aux (a b : coord) : haversine a b = haversine b a.
Proof.
  unfold haversine; cbv zeta.
  replace ((fst a - fst b) * PI / 180 / 2) with (- ((fst b - fst a) * PI / 180 / 2)) by field.
  replace ((snd a - snd b) * PI / 180 / 2) with (- ((snd b - snd a) * PI / 180 / 2)) by field.
  rewrite !sin_sq_neg.
  rewrite (Rmult_comm (cos (fst b * PI / 180)) (cos (fst a * PI / 180))).
  reflexivity.
Qed.

Lemma haversine_refl_aux (a : coord) : haversine a a = 0.
Proof.
  unfold haversine; cbv zeta.
  replace ((fst a - fst a) * PI / 180 / 2) with 0 by field.
  replace ((snd a - snd a) * PI / 180 / 2) with 0 by field.
  rewrite sin_0.
  replace (0 ^ 2 + cos (fst a * PI / 180) * cos (fst a * PI / 180) * 0 ^ 2) with 0 by ring.
  rewrite Rminus_0_r, sqrt_0, sqrt_1, atan2_0_1. ring.
Qed.

Lemma haversine_unfold (a b : coord) :
  haversine a b = 6371000 * 2 * atan2 (sqrt (haversineArg a b)) (sqrt (1 - haversineArg a b)).
Proof. reflexivity. Qed.

Lemma radicand_range (p1 p2 dl : R) :
  0 <= sin ((p2 - p1) / 2) ^ 2 + cos p1 * cos p2 * sin (dl / 2) ^ 2 <= 1.
Proof.
  pose proof (sin2_cos2 p1) as H1. pose proof (sin2_cos2 p2) as H2.
  pose proof (sin2_cos2 (dl / 2)) as H3. unfold Rsqr in *.
  assert (Hc : cos (p2 - p1) = 1 - 2 * sin ((p2 - p1) / 2) ^ 2).
  { replace (p2 - p1) with (2 * ((p2 - p1) / 2)) at 1 by field.
    rewrite cos_2a_sin. unfold Rsqr. ring. }
  rewrite cos_minus in Hc.
  set (s1 := sin p1) in *. set (c1 := cos p1) in *.
  set (s2 := sin p2) in *. set (c2 := cos p2) in *.
  set (u := sin (dl / 2)) in *. set (v := cos (dl / 2)) in *.
  set (a := sin ((p2 - p1) / 2) ^ 2) in *.
  assert (Ha : a = (1 - c2 * c1 - s2 * s1) / 2) by lra.
  rewrite Ha. clear Hc Ha a.
  pose proof (Rle_0_sqr (s1 - s2)) as Q1. pose proof (Rle_0_sqr (s1 + s2)) as Q2.
  pose proof (Rle_0_sqr (v * (c1 - c2))) as Q3. pose proof (Rle_0_sqr (u * (c1 + c2))) as Q4.
  pose proof (Rle_0_sqr (v * (c1 + c2))) as Q5. pose proof (Rle_0_sqr (u * (c1 - c2))) as Q6.
  unfold Rsqr in *. split; nra.
Qed.

(** In the real-number model neither square root of [haversine] gets a
    negative argument. *)
Lemma haversineArg_range (a b : coord) : 0 <= haversineArg a b <= 1.
Proof.
  unfold haversineArg.
  replace ((fst b - fst a) * PI / 180 / 2)
    with ((fst b * PI / 180 - fst a * PI / 180) / 2) by field.
  apply radicand_range.
Qed.


(** ** Segmentation *)

Section SliceFacts.
Local Open Scope nat_scope.
Context {A : Type}.
Variable coords : list A.

Lemma slice_length (i j : nat) :
  j <= length coords -> length (slice i j coords) = j - i.
Proof.
  intros Hj. unfold slice. rewrite length_firstn, length_skipn. lia.
Qed.

Lemma slice_nth (i j k : nat) (d : A) :
  i + k < j -> nth k (slice i j coords) d = nth (i + k) coords d.
Proof.
  intros Hk. unfold slice. rewrite nth_firstn.
  replace (k <? j - i) with true by (symmetry; apply Nat.ltb_lt; lia).
  apply nth_skipn.
Qed.

Lemma slice_to_end (i j : nat) :
  length coords <= j -> slice i j coords = skipn i coords.
Proof.
  intros Hj. unfold slice. apply firstn_all2. rewrite length_skipn. lia.
Qed.

Lemma tl_skipn (n : nat) (l : list A) : tl (skipn n l) = skipn (S n) l.
Proof.
  revert l. induction n as [| n IH]; intros l.
  - destruct l; reflexivity.
  - destruct l as [| x l]; [reflexivity |]. cbn [skipn]. rewrite IH. reflexivity.
Qed.

Lemma flat_map_tl_rejoin (cs : list (list A)) :
  Forall (fun sl => 2 <= length sl) cs -> flat_map (@tl A) cs = tl (rejoin cs).
Proof.
  intros H. destruct cs as [| c rest]; [reflexivity |].
  cbn [flat_map rejoin]. inversion H as [| ? ? Hc _]; subst.
  destruct c as [| x c]; [cbn in Hc; lia | reflexivity].
Qed.

Lemma last_as_nth (l : list A) (d : A) : last l d = nth (length l - 1) l d.
Proof.
  induction l as [| x l IH]; [reflexivity |].
  destruct l as [| y l]; [reflexivity |].
  change (last (x :: y :: l) d) with (last (y :: l) d). rewrite IH.
  cbn [length Nat.sub]. rewrite !Nat.sub_0_r. reflexivity.
Qed.

Lemma hd_as_nth (l : list A) (d : A) : hd d l = nth 0 l d.
Proof. destruct l; reflexivity. Qed.

Lemma segLoop_done {B : Type} (mk : list A -> B) (fuel i chunk : nat) :
  length coords <= S i -> segLoop mk fuel i chunk coords = [].
Proof.
  intros Hi. destruct fuel as [| fuel]; [reflexivity |]. cbn [segLoop].
  replace (S i <? length coords) with false; [reflexivity |].
  symmetry. apply Nat.ltb_ge. lia.
Qed.
End SliceFacts.

Section SegmenterFacts.
Local Open Scope nat_scope.
Context {A : Type}.
Variable coords : list A.
Variable chunk : nat.
Hypothesis chunk_pos : 1 <= chunk.

Lemma sliceAt_length (i : nat) :
  S i < length coords -> 2 <= length (sliceAt coords chunk i).
Proof.
  intros Hi. unfold sliceAt. rewrite slice_length by lia. lia.
Qed.

Lemma segLoop_step {B : Type} (mk : list A -> B) (fuel i : nat) :
  S i < length coords ->
  segLoop mk (S fuel) i chunk coords = mk (sliceAt coords chunk i) :: segLoop mk fuel (i + chunk) chunk coords.
Proof.
  intros Hi. cbn [segLoop].
  replace (S i <? length coords) with true by (symmetry; apply Nat.ltb_lt; lia).
  fold (sliceAt coords chunk i).
  replace (length (sliceAt coords chunk i) <? 2) with false; [reflexivity |].
  symmetry. apply Nat.ltb_ge. now apply sliceAt_length.
Qed.

Lemma segLoop_map {B : Type} (mk : list A -> B) (fuel i : nat) :
  length coords - i <= fuel ->
  segLoop mk fuel i chunk coords = map mk (segLoop (fun sl => sl) fuel i chunk coords).
Proof.
  revert i. induction fuel as [| fuel IH]; intros i Hf; [reflexivity |].
  destruct (Nat.lt_ge_cases (S i) (length coords)) as [Hi | Hi].
  - rewrite !segLoop_step by assumption. cbn [map]. f_equal. apply IH. lia.
  - rewrite !segLoop_done by assumption. reflexivity.
Qed.

(** The [k]-th pushed element: the loop reaches index [i + k * chunk] as
    long as the test holds there. *)
Lemma segLoop_nth_error {B : Type} (mk : list A -> B) (fuel i k : nat) :
  length coords - i <= fuel ->
  nth_error (segLoop mk fuel i chunk coords) k =
    if S (i + k * chunk) <? length coords then Some (mk (sliceAt coords chunk (i + k * chunk))) else None.
Proof.
  revert i k. induction fuel as [| fuel IH]; intros i k Hf.
  - cbn [segLoop]. rewrite nth_error_nil.
    replace (S (i + k * chunk) <? length coords) with false; [reflexivity |].
    symmetry. apply Nat.ltb_ge. lia.
  - destruct (Nat.lt_ge_cases (S i) (length coords)) as [Hi | Hi].
    + rewrite segLoop_step by assumption. destruct k as [| k].
      * cbn [nth_error]. replace (i + 0 * chunk) with i by lia.
        replace (S i <? length coords) with true by (symmetry; apply Nat.ltb_lt; lia).
        reflexivity.
      * cbn [nth_error]. rewrite IH by lia.
        replace (i + chunk + k * chunk) with (i + S k * chunk) by lia. reflexivity.
    + rewrite segLoop_done by assumption. rewrite nth_error_nil.
      replace (S (i + k * chunk) <? length coords) with false; [reflexivity |].
      symmetry. apply Nat.ltb_ge. lia.
Qed.

Lemma segLoop_all_ge2 (fuel i : nat) :
  Forall (fun sl => 2 <= length sl) (segLoop (fun sl => sl) fuel i chunk coords).
Proof.
  revert i. induction fuel as [| fuel IH]; intros i; [constructor |].
  destruct (Nat.lt_ge_cases (S i) (length coords)) as [Hi | Hi].
  - rewrite segLoop_step by assumption. constructor; [now apply sliceAt_length | apply IH].
  - rewrite segLoop_done by assumption. constructor.
Qed.

Lemma rejoin_segLoop (fuel i : nat) :
  length coords - i <= fuel -> S i < length coords ->
  rejoin (segLoop (fun sl => sl) fuel i chunk coords) = skipn i coords.
Proof.
  revert i. induction fuel as [| fuel IH]; intros i Hf Hi; [lia |].
  rewrite segLoop_step by assumption. cbn [rejoin].
  rewrite flat_map_tl_rejoin by apply segLoop_all_ge2.
  destruct (Nat.lt_ge_cases (S (i + chunk)) (length coords)) as [Hn | Hn].
  - rewrite IH by lia. rewrite tl_skipn. unfold sliceAt, slice.
    replace (Nat.min (i + chunk + 1) (length coords) - i) with (S chunk) by lia.
    replace (S (i + chunk)) with (S chunk + i) by lia.
    rewrite <- skipn_skipn. apply firstn_skipn.
  - rewrite segLoop_done by assumption. cbn [rejoin tl]. rewrite app_nil_r.
    unfold sliceAt. apply slice_to_end. lia.
Qed.

Lemma segLoop_length_iff {B : Type} (mk : list A -> B) (k : nat) :
  k < length (segLoop mk (length coords) 0 chunk coords) <-> k * chunk + 1 < length coords.
Proof.
  rewrite <- nth_error_Some, segLoop_nth_error by lia. cbn [Nat.add].
  destruct (S (k * chunk) <? length coords) eqn:E.
  - apply Nat.ltb_lt in E. split; [lia | discriminate].
  - apply Nat.ltb_ge in E. split; [congruence | lia].
Qed.

Lemma segLoop_nth (k : nat) :
  k < length (segLoop (fun sl => sl) (length coords) 0 chunk coords) ->
  nth k (segLoop (fun sl => sl) (length coords) 0 chunk coords) [] = sliceAt coords chunk (k * chunk).
Proof.
  intros Hk. apply nth_error_nth. rewrite segLoop_nth_error by lia. cbn [Nat.add].
  apply segLoop_length_iff in Hk.
  replace (S (k * chunk) <? length coords) with true by (symmetry; apply Nat.ltb_lt; lia).
  reflexivity.
Qed.

(** A chunk that is followed by another one ends on the point the next one
    starts with. *)
Lemma sliceAt_boundary (i : nat) (d : A) :
  S (i + chunk) < length coords ->
  last (sliceAt coords chunk i) d = hd d (sliceAt coords chunk (i + chunk)).
Proof.
  intros Hn. rewrite last_as_nth, hd_as_nth. unfold sliceAt.
  rewrite slice_length by lia. rewrite !slice_nth by lia.
  f_equal. lia.
Qed.

Lemma segLoop_boundary (k : nat) (d : A) :
  S k < length (segLoop (fun sl => sl) (length coords) 0 chunk coords) ->
  hd d (nth (S k) (segLoop (fun sl => sl) (length coords) 0 chunk coords) []) =
  last (nth k (segLoop (fun sl => sl) (length coords) 0 chunk coords) []) d.
Proof.
  intros Hk. rewrite !segLoop_nth by lia.
  apply segLoop_length_iff in Hk.
  replace (S k * chunk) with (k * chunk + chunk) by lia.
  symmetry. apply sliceAt_boundary. lia.
Qed.
End SegmenterFacts.

(** The loop ends within [length coords - i] iterations: any larger bound
    gives the same list. *)
Lemma segLoop_enough_fuel {A B : Type} (mk : list A -> B) (coords : list A)
      (chunk fuel fuel' i : nat) :
  (1 <= chunk)%nat -> (length coords - i <= fuel)%nat -> (length coords - i <= fuel')%nat ->
  segLoop mk fuel i chunk coords = segLoop mk fuel' i chunk coords.
Proof.
  intros Hc Hf Hf'. apply nth_error_ext. intros k.
  now rewrite !segLoop_nth_error.
Qed.

Section ChunkFacts.
Local Open Scope nat_scope.

Lemma chunkCount_bounds (len : nat) : 3 <= chunkCount len <= 10.
Proof. unfold chunkCount. lia. Qed.

Lemma chunkSize_covers (len : nat) : len <= chunkSize len * chunkCount len.
Proof.
  unfold chunkSize. cbv zeta. pose proof (chunkCount_bounds len) as Hn.
  pose proof (Nat.div_mod (len + chunkCount len - 1) (chunkCount len)) as Hd.
  pose proof (Nat.mod_upper_bound (len + chunkCount len - 1) (chunkCount len)) as Hm.
  nia.
Qed.

Lemma chunkSize_pos (len : nat) : 1 <= len -> 1 <= chunkSize len.
Proof.
  intros Hl. pose proof (chunkSize_covers len) as H.
  destruct (chunkSize len); [cbn in H; lia | lia].
Qed.

Lemma chunkSize_least (len : nat) :
  chunkSize len = 0 \/ (chunkSize len - 1) * chunkCount len < len.
Proof.
  pose proof (chunkCount_bounds len) as Hn. unfold chunkSize. cbv zeta.
  pose proof (Nat.div_mod (len + chunkCount len - 1) (chunkCount len)) as Hd.
  destruct ((len + chunkCount len - 1) / chunkCount len) as [| a]; [now left | right].
  nia.
Qed.

Lemma chunks_short {A : Type} (coords : list A) : length coords < 2 -> chunks coords = [].
Proof.
  intros H. unfold chunks. destruct (length coords) as [| n] eqn:E; [reflexivity |].
  apply segLoop_done. lia.
Qed.

Lemma chunks_length_iff {A : Type} (coords : list A) (k : nat) :
  k < length (chunks coords) <-> k * chunkSize (length coords) + 1 < length coords.
Proof.
  destruct (Nat.lt_ge_cases (length coords) 2) as [Hs | Hs].
  - rewrite chunks_short by assumption. cbn [length]. split; [lia |].
    pose proof (Nat.le_0_l (k * chunkSize (length coords))). lia.
  - apply segLoop_length_iff. apply chunkSize_pos. lia.
Qed.

Lemma chunks_length_le {A : Type} (coords : list A) :
  length (chunks coords) <= chunkCount (length coords).
Proof.
  destruct (Nat.le_gt_cases (length (chunks coords)) (chunkCount (length coords)))
    as [H | H]; [assumption | exfalso].
  apply chunks_length_iff in H. pose proof (chunkSize_covers (length coords)). lia.
Qed.

Lemma chunks_length_div {A : Type} (coords : list A) :
  length (chunks coords) =
  (length coords - 1 + chunkSize (length coords) - 1) / chunkSize (length coords).
Proof.
  destruct (Nat.lt_ge_cases (length coords) 2) as [Hs | Hs].
  - rewrite chunks_short by assumption. cbn [length].
    destruct (length coords) as [| [| n]] eqn:E; [reflexivity | reflexivity | lia].
  - pose proof (chunkSize_pos (length coords) ltac:(lia)) as Hc.
    set (c := chunkSize (length coords)) in *.
    set (m := length (chunks coords)).
    pose proof (Nat.div_mod (length coords - 1 + c - 1) c ltac:(lia)) as Hd.
    pose proof (Nat.mod_upper_bound (length coords - 1 + c - 1) c ltac:(lia)) as Hm.
    set (q := (length coords - 1 + c - 1) / c) in *.
    destruct (Nat.lt_trichotomy m q) as [H | [H | H]]; [exfalso | assumption | exfalso].
    + assert (Hnot : ~ m < m) by lia.
      unfold m in Hnot at 2. rewrite chunks_length_iff in Hnot. fold c in Hnot. nia.
    + unfold m in H. rewrite chunks_length_iff in H. fold c in H. nia.
Qed.

Lemma chunks_nth {A : Type} (coords : list A) (k : nat) :
  k < length (chunks coords) ->
  nth k (chunks coords) [] =
  slice (k * chunkSize (length coords))
        (Nat.min (k * chunkSize (length coords) + chunkSize (length coords) + 1)
                 (length coords)) coords.
Proof.
  intros Hk. destruct (Nat.lt_ge_cases (length coords) 2) as [Hs | Hs].
  - rewrite chunks_short in Hk by assumption. cbn in Hk. lia.
  - apply segLoop_nth; [apply chunkSize_pos; lia | exact Hk].
Qed.

Lemma chunks_boundary {A : Type} (coords : list A) (k : nat) (d : A) :
  S k < length (chunks coords) ->
  hd d (nth (S k) (chunks coords) []) = last (nth k (chunks coords) []) d.
Proof.
  intros Hk. destruct (Nat.lt_ge_cases (length coords) 2) as [Hs | Hs].
  - rewrite chunks_short in Hk by assumption. cbn in Hk. lia.
  - apply segLoop_boundary; [apply chunkSize_pos; lia | exact Hk].
Qed.

Lemma chunks_all_ge2 {A : Type} (coords : list A) :
  Forall (fun sl => 2 <= length sl) (chunks coords).
Proof.
  destruct (Nat.lt_ge_cases (length coords) 2) as [Hs | Hs].
  - rewrite chunks_short by assumption. constructor.
  - apply segLoop_all_ge2. apply chunkSize_pos. lia.
Qed.

Lemma chunks_rejoin {A : Type} (coords : list A) :
  2 <= length coords -> rejoin (chunks coords) = coords.
Proof.
  intros Hl. unfold chunks. rewrite rejoin_segLoop; [reflexivity | | lia | lia].
  apply chunkSize_pos. lia.
Qed.

Lemma segments_coordinates (coords : list coord) (dist : R) (hazards : list HazardPoint) :
  map coordinates (segments (buildResult coords dist hazards)) = chunks coords.
Proof.
  unfold buildResult, chunks. cbn [segments].
  destruct (Nat.lt_ge_cases (length coords) 2) as [Hs | Hs].
  - destruct (length coords) as [| n] eqn:E; [reflexivity |].
    rewrite !segLoop_done by lia. reflexivity.
  - assert (Hc : 1 <= chunkSize (length coords)) by (apply chunkSize_pos; lia).
    rewrite (segLoop_map coords (chunkSize (length coords)) Hc (mkSegment hazards)) by lia.
    rewrite map_map. cbn [mkSegment coordinates]. apply map_id.
Qed.
End ChunkFacts.

(** The loop on index lists of 2, 7 and 27 points. *)
Example chunks_of_2 : chunks (seq 0 2) = [[0; 1]]%nat.
Proof. reflexivity. Qed.

Example chunks_of_7 : chunks (seq 0 7) = [[0; 1; 2; 3]; [3; 4; 5; 6]]%nat.
Proof. reflexivity. Qed.

Example chunks_of_27 :
  map (@length nat) (chunks (seq 0 27)) = [7; 7; 7; 7; 3]%nat /\
  map (hd 0%nat) (chunks (seq 0 27)) = [0; 6; 12; 18; 24]%nat.
Proof. split; reflexivity. Qed.

Example chunks_of_1 : chunks (seq 0 1) = [] /\ chunks (@nil nat) = [].
Proof. split; reflexivity. Qed.

(** C2: for a path of at least 2 points, the retained chunks of [buildResult],
    concatenated in order with the first point of every later chunk dropped,
    give the path back; the dropped point is the last point of the chunk
    before it. *)
Theorem segmentation_complete (path : list coord) (dist : R) (hazards : list HazardPoint) :
  (2 <= length path)%nat ->
  let cs := map coordinates (segments (buildResult path dist hazards)) in
  rejoin cs = path /\
  forall (k : nat) (d : coord),
    (S k < length cs)%nat -> hd d (nth (S k) cs []) = last (nth k cs []) d.
Proof.
  intros Hl cs. unfold cs. rewrite segments_coordinates. split.
  - now apply chunks_rejoin.
  - intros k d Hk. now apply chunks_boundary.
Qed.

Lemma segmentation_complete_witness :
  (2 <= length path7)%nat /\
  rejoin (map coordinates (segments (buildResult path7 6 []))) = path7.
Proof.
  split; [cbn; lia |].
  apply (segmentation_complete path7 6 []). cbn; lia.
Defined.

(** C6, as the code has it: the loop aims at [n = clamp(floor(len/5), 3, 10)]
    chunks and steps by [chunk = ceil(len/n)]; it retains
    [ceil((len-1)/chunk)] chunks, at most [n]; chunk [k] is
    [path.slice(k*chunk, min(k*chunk+chunk+1, len))]; every chunk after the
    first begins with the last point of the one before; no retained chunk has
    fewer than 2 points. *)
Theorem segmentation_shape (path : list coord) (dist : R) (hazards : list HazardPoint) :
  let len := length path in
  let n := chunkCount len in
  let chunk := chunkSize len in
  let cs := map coordinates (segments (buildResult path dist hazards)) in
  (n = Nat.min 10 (Nat.max 3 (len / 5)) /\
   (len <= chunk * n)%nat /\ (chunk = 0%nat \/ ((chunk - 1) * n < len)%nat)) /\
  length cs = ((len - 1 + chunk - 1) / chunk)%nat /\
  (forall k : nat, (k < length cs)%nat <-> (k * chunk + 1 < len)%nat) /\
  (length cs <= n)%nat /\
  (forall k : nat, (k < length cs)%nat ->
     nth k cs [] = slice (k * chunk) (Nat.min (k * chunk + chunk + 1) len) path) /\
  (forall (k : nat) (d : coord),
     (S k < length cs)%nat -> hd d (nth (S k) cs []) = last (nth k cs []) d) /\
  Forall (fun sl => (2 <= length sl)%nat) cs.
Proof.
  intros len n chunk cs. unfold cs. rewrite segments_coordinates.
  repeat split.
  - apply chunkSize_covers.
  - apply chunkSize_least.
  - apply chunks_length_div.
  - apply chunks_length_iff.
  - apply chunks_length_iff.
  - apply chunks_length_le.
  - intros k Hk. now apply chunks_nth.
  - intros k d Hk. now apply chunks_boundary.
  - apply chunks_all_ge2.
Qed.

Lemma segmentation_shape_witness :
  length (map coordinates (segments (buildResult path7 6 []))) = 2%nat /\
  nth 1 (map coordinates (segments (buildResult path7 6 []))) [] = [(0, 3); (0, 4); (0, 5); (0, 6)].
Proof.
  destruct (segmentation_shape path7 6 []) as (_ & Hlen & _ & _ & Hnth & _).
  split; [exact Hlen |].
  rewrite Hnth; [reflexivity | rewrite Hlen; cbn; lia].
Defined.

(** C6 as stated fails: a path of 7 points gives 2 chunks, while
    [clamp(floor(7/5), 3, 10)] is 3. *)
Lemma chunk_count_counterexample :
  chunkCount (length path7) = 3%nat /\
  length (segments (buildResult path7 6 [])) = 2%nat /\
  length (segments (buildResult path7 6 [])) <> chunkCount (length path7).
Proof.
  assert (H : length (segments (buildResult path7 6 [])) = 2%nat).
  { rewrite <- (length_map coordinates), segments_coordinates. reflexivity. }
  split; [reflexivity |]. split; [exact H |]. rewrite H. cbn. lia.
Qed.

(** ** Classification *)

Lemma haversine_far : haversine origin antimeridian = 6371000 * PI.
Proof.
  unfold haversine, origin, antimeridian; cbn [fst snd].
  replace ((0 - 0) * PI / 180 / 2) with 0 by field.
  replace ((180 - 0) * PI / 180 / 2) with (PI / 2) by field.
  replace (0 * PI / 180) with 0 by field.
  rewrite sin_0, sin_PI2, cos_0.
  replace (0 ^ 2 + 1 * 1 * 1 ^ 2) with 1 by ring.
  replace (1 - 1) with 0 by ring.
  rewrite sqrt_0, sqrt_1, atan2_1_0. field.
Qed.

Lemma PI_gt_3 : 3 < PI.
Proof. pose proof PI2_3_2. lra. Qed.

Lemma near_iff (c : coord) (h : HazardPoint) :
  near c h = true <-> haversine c (hp_lat h, hp_lng h) < 30.
Proof. apply Rltb_spec. Qed.

Lemma near_false_iff (c : coord) (h : HazardPoint) :
  near c h = false <-> 30 <= haversine c (hp_lat h, hp_lng h).
Proof.
  unfold near, Rltb. destruct (Rlt_dec (haversine c (hp_lat h, hp_lng h)) 30); split; intros;
    try reflexivity; try discriminate; lra.
Qed.

Lemma near_same (c : coord) (h : HazardPoint) :
  hp_lat h = fst c -> hp_lng h = snd c -> near c h = true.
Proof.
  intros H1 H2. apply near_iff. rewrite H1, H2, <- surjective_pairing, haversine_refl_aux. lra.
Qed.

Lemma near_origin_antimeridian (h : HazardPoint) :
  hp_lat h = 0 -> hp_lng h = 180 -> near origin h = false.
Proof.
  intros H1 H2. apply near_false_iff. rewrite H1, H2.
  change (0, 180) with antimeridian. rewrite haversine_far. pose proof PI_gt_3. lra.
Qed.

Lemma near_antimeridian_origin (h : HazardPoint) :
  hp_lat h = 0 -> hp_lng h = 0 -> near antimeridian h = false.
Proof.
  intros H1 H2. apply near_false_iff. rewrite H1, H2.
  change (0, 0) with origin. rewrite haversine_sym_aux, haversine_far. pose proof PI_gt_3. lra.
Qed.

(** The inner loop returns exactly when some point of the chunk is near. *)
Lemma scanCoords_Some (h : HazardPoint) (coords : list coord) :
  (exists c, In c coords /\ near c h = true) ->
  scanCoords h coords = Some (tagOfSeverity (hp_type h)).
Proof.
  induction coords as [| c cs IH]; intros (c0 & Hin & Hn).
  - destruct Hin.
  - cbn [scanCoords]. destruct (near c h) eqn:E; [reflexivity |].
    apply IH. destruct Hin as [-> | Hin]; [congruence | now exists c0].
Qed.

Lemma scanCoords_None (h : HazardPoint) (coords : list coord) :
  (forall c, In c coords -> near c h = false) -> scanCoords h coords = None.
Proof.
  induction coords as [| c cs IH]; intros H; [reflexivity |].
  cbn [scanCoords]. rewrite (H c (or_introl eq_refl)). apply IH.
  intros c' Hc'. apply H. now right.
Qed.

Lemma scanCoords_cases (h : HazardPoint) (coords : list coord) :
  (scanCoords h coords = Some (tagOfSeverity (hp_type h)) /\
   exists c, In c coords /\ near c h = true) \/
  (scanCoords h coords = None /\ forall c, In c coords -> near c h = false).
Proof.
  induction coords as [| c cs IH].
  - right. split; [reflexivity | intros c []].
  - cbn [scanCoords]. destruct (near c h) eqn:E.
    + left. split; [reflexivity |]. exists c. split; [now left | assumption].
    + destruct IH as [(H1 & c0 & Hin & Hn) | (H1 & H2)].
      * left. split; [assumption |]. exists c0. split; [now right | assumption].
      * right. split; [assumption |]. intros c' [<- | Hc']; [assumption | now apply H2].
Qed.

(** First match wins: hazards before [h] that are near no point are skipped. *)
Lemma classifySeg_first_match (coords : list coord) (pre post : list HazardPoint)
      (h : HazardPoint) :
  (forall h' c, In h' pre -> In c coords -> near c h' = false) ->
  (exists c, In c coords /\ near c h = true) ->
  classifySeg coords (pre ++ h :: post) = tagOfSeverity (hp_type h).
Proof.
  intros Hpre Hh. induction pre as [| h' pre IH]; cbn [app classifySeg].
  - now rewrite scanCoords_Some.
  - rewrite scanCoords_None.
    + apply IH. intros h'' c Hin. apply Hpre. now right.
    + intros c Hc. apply Hpre; [now left | assumption].
Qed.

Lemma classifySeg_none_near (coords : list coord) (hazards : list HazardPoint) :
  (forall h c, In h hazards -> In c coords -> near c h = false) ->
  classifySeg coords hazards = safe.
Proof.
  induction hazards as [| h hs IH]; intros H; [reflexivity |].
  cbn [classifySeg]. rewrite scanCoords_None.
  - apply IH. intros h' c Hh'. apply H. now right.
  - intros c Hc. apply H; [now left | assumption].
Qed.

Lemma segments_classified (coords : list coord) (dist : R) (hazards : list HazardPoint)
      (s : RouteSegment) :
  In s (segments (buildResult coords dist hazards)) ->
  accessibility s = classifySeg (coordinates s) hazards.
Proof.
  unfold buildResult. cbn [segments].
  generalize (length coords) at 1. generalize 0%nat. generalize (chunkSize (length coords)).
  intros chunk i fuel. revert i.
  induction fuel as [| fuel IH]; intros i; cbn [segLoop]; [intros [] |].
  destruct (S i <? length coords)%nat; [| intros []].
  destruct (length _ <? 2)%nat; [apply IH |].
  intros [<- | Hin]; [reflexivity | now apply (IH (i + chunk)%nat)].
Qed.

(** C1: [classifySeg] goes through the hazards in list order and returns at
    the first hazard that has a chunk point less than 30 m away: 'hazard' for
    severity hazard, 'safe' for info, 'caution' otherwise; with no hazard
    within 30 m of a chunk point it returns 'safe'.  The list [doRoute]
    classifies against is the static points followed by the reports. *)
Theorem classify_first_match (chunk : list coord) (hazards : list HazardPoint) :
  (forall pre h post,
      hazards = pre ++ h :: post ->
      (forall h' c, In h' pre -> In c chunk -> 30 <= haversine c (hp_lat h', hp_lng h')) ->
      (exists c, In c chunk /\ haversine c (hp_lat h, hp_lng h) < 30) ->
      classifySeg chunk hazards =
        match hp_type h with
        | sev_hazard => hazard
        | sev_info => safe
        | sev_caution => caution
        end) /\
  ((forall h c, In h hazards -> In c chunk -> 30 <= haversine c (hp_lat h, hp_lng h)) ->
   classifySeg chunk hazards = safe) /\
  (forall distanceTo reply aPoints reports startPoint endPoint s,
      In s (segments (doRoute distanceTo reply aPoints reports startPoint endPoint)) ->
      accessibility s = classifySeg (coordinates s) (aPoints ++ map hazardOfReport reports)).
Proof.
  split; [| split].
  - intros pre h post -> Hpre (c & Hc & Hlt).
    rewrite classifySeg_first_match.
    + destruct (hp_type h); reflexivity.
    + intros h' c' Hh' Hc'. apply near_false_iff. now apply Hpre.
    + exists c. split; [assumption | now apply near_iff].
  - intros H. apply classifySeg_none_near. intros h c Hh Hc. apply near_false_iff. now apply H.
  - intros distanceTo reply aPoints reports sp ep s Hs.
    unfold doRoute, calcRoute in Hs. destruct reply; now apply segments_classified in Hs.
Qed.

Lemma classify_first_match_witness :
  classifySeg [origin] sampleHazards = caution.
Proof.
  destruct (classify_first_match [origin] sampleHazards) as (H & _ & _).
  apply (H [hazardAt antimeridian sev_info] (hazardAt origin sev_caution)
           [hazardAt origin sev_hazard]).
  - reflexivity.
  - intros h' c [<- | []] [<- | []]. cbn [hazardAt hp_lat hp_lng antimeridian fst snd].
    change (0, 180) with antimeridian. rewrite haversine_far. pose proof PI_gt_3. lra.
  - exists origin. split; [now left |]. cbn [hazardAt hp_lat hp_lng origin fst snd].
    change (0, 0) with origin. rewrite haversine_refl_aux. lra.
Defined.

(** C5, as the code has it: a hazard-severity point within 29 m of a chunk
    point makes the chunk 'hazard' when no earlier point of another severity
    is within 30 m of the chunk; a chunk at least 31 m from every hazard is
    'safe'. *)
Theorem classify_threshold (chunk : list coord) (hazards : list HazardPoint) :
  (forall pre h post,
      hazards = pre ++ h :: post ->
      hp_type h = sev_hazard ->
      (exists c, In c chunk /\ haversine c (hp_lat h, hp_lng h) <= 29) ->
      (forall h' c, In h' pre -> hp_type h' <> sev_hazard -> In c chunk ->
                    30 <= haversine c (hp_lat h', hp_lng h')) ->
      classifySeg chunk hazards = hazard) /\
  ((forall h c, In h hazards -> In c chunk -> 31 <= haversine c (hp_lat h, hp_lng h)) ->
   classifySeg chunk hazards = safe).
Proof.
  split.
  - intros pre h post -> Hty (c & Hc & Hle) Hpre.
    induction pre as [| h' pre IH]; cbn [app classifySeg].
    + rewrite scanCoords_Some; [now rewrite Hty |].
      exists c. split; [assumption |]. apply near_iff. lra.
    + destruct (scanCoords_cases h' chunk) as [(-> & c' & Hc' & Hn) | (-> & _)].
      * destruct (hp_type h') eqn:E; [reflexivity | exfalso | exfalso].
        -- apply near_iff in Hn.
           assert (30 <= haversine c' (hp_lat h', hp_lng h'))
             by (apply Hpre; [now left | congruence | assumption]). lra.
        -- apply near_iff in Hn.
           assert (30 <= haversine c' (hp_lat h', hp_lng h'))
             by (apply Hpre; [now left | congruence | assumption]). lra.
      * apply IH. intros h'' c'' Hin. apply Hpre. now right.
  - intros H. apply classifySeg_none_near. intros h c Hh Hc. apply near_false_iff.
    specialize (H h c Hh Hc). lra.
Qed.

Lemma classify_threshold_witness :
  classifySeg [origin] [hazardAt antimeridian sev_info; hazardAt origin sev_hazard] = hazard.
Proof.
  destruct (classify_threshold [origin] [hazardAt antimeridian sev_info; hazardAt origin sev_hazard])
    as (H & _).
  apply (H [hazardAt antimeridian sev_info] (hazardAt origin sev_hazard) []).
  - reflexivity.
  - reflexivity.
  - exists origin. split; [now left |]. cbn [hazardAt hp_lat hp_lng origin fst snd].
    change (0, 0) with origin. rewrite haversine_refl_aux. lra.
  - intros h' c [<- | []] _ [<- | []]. cbn [hazardAt hp_lat hp_lng antimeridian fst snd].
    change (0, 180) with antimeridian. rewrite haversine_far. pose proof PI_gt_3. lra.
Defined.

(** C5 as stated fails: a report (severity hazard) filed at the Main Gate
    ramp lies 0 m from the chunk, yet the chunk is 'safe', because the ramp's
    info point comes first in the list. *)
Lemma classify_threshold_counterexample :
  (exists c h, In c rampChunk /\ In h rampHazards /\ hp_type h = sev_hazard /\
               haversine c (hp_lat h, hp_lng h) <= 29) /\
  classifySeg rampChunk rampHazards = safe /\
  classifySeg rampChunk rampHazards <> hazard.
Proof.
  assert (Hs : classifySeg rampChunk rampHazards = safe).
  { unfold rampChunk, rampHazards, combined, getKUAccessibilityPoints. cbv zeta.
    cbn [app classifySeg scanCoords]. rewrite near_same; [reflexivity | |];
      cbn [hp_lat hp_lng rampPoint fst snd KU_CENTER ll_lat ll_lng]; lra. }
  split; [| split; [exact Hs | rewrite Hs; discriminate]].
  exists rampPoint, (hazardOfReport reportAtRamp). repeat split.
  - now left.
  - unfold rampHazards, combined. apply in_or_app. right. now left.
  - cbn [hazardOfReport reportAtRamp hp_lat hp_lng ir_lat ir_lng].
    change (27.6206, 85.5390) with rampPoint. rewrite haversine_refl_aux. lra.
Qed.

(** ** Time estimate *)

Lemma countTag_cons (t : Accessibility) (s : RouteSegment) (segs : list RouteSegment) :
  countTag t (s :: segs) =
  ((if Accessibility_eqb (accessibility s) t then 1 else 0) + countTag t segs)%nat.
Proof.
  unfold countTag. cbn [filter]. destruct (Accessibility_eqb (accessibility s) t); reflexivity.
Qed.

Lemma countTag_total (segs : list RouteSegment) :
  (countTag safe segs + countTag caution segs + countTag hazard segs = length segs)%nat.
Proof.
  induction segs as [| s segs IH]; [reflexivity |].
  rewrite !countTag_cons. cbn [length]. destruct (accessibility s); cbn [Accessibility_eqb]; lia.
Qed.

Lemma length_pos_INR (segs : list RouteSegment) : segs <> [] -> 0 < INR (length segs).
Proof.
  intros H. apply lt_0_INR. destruct segs; [contradiction | cbn; lia].
Qed.

Lemma tagRatio_nonneg (t : Accessibility) (segs : list RouteSegment) :
  segs <> [] -> 0 <= tagRatio t segs.
Proof.
  intros H. unfold tagRatio. apply Rmult_le_pos; [apply pos_INR |].
  left. apply Rinv_0_lt_compat. now apply length_pos_INR.
Qed.

Lemma tagRatio_total (segs : list RouteSegment) :
  segs <> [] -> tagRatio safe segs + tagRatio caution segs + tagRatio hazard segs = 1.
Proof.
  intros H. unfold tagRatio. pose proof (length_pos_INR segs H) as Hn.
  assert (Hsum : INR (length segs) =
                 INR (countTag safe segs) + INR (countTag caution segs)
                 + INR (countTag hazard segs)).
  { rewrite <- (countTag_total segs) at 1. now rewrite !plus_INR. }
  set (n := INR (length segs)) in *.
  replace (INR (countTag safe segs) / n + INR (countTag caution segs) / n
           + INR (countTag hazard segs) / n) with (n / n) by (rewrite Hsum at 1; field; lra).
  field. lra.
Qed.

Lemma speedFactor_lower (segs : list RouteSegment) : segs <> [] -> 0.35 <= speedFactor segs.
Proof.
  intros H. unfold speedFactor.
  pose proof (tagRatio_total segs H). pose proof (tagRatio_nonneg safe segs H).
  pose proof (tagRatio_nonneg caution segs H). pose proof (tagRatio_nonneg hazard segs H). lra.
Qed.

Lemma speedFactor_nil : speedFactor [] = 0.
Proof. unfold speedFactor, tagRatio. cbn [countTag filter length INR]. unfold Rdiv. ring. Qed.

Lemma estimateTime_nil (dist : R) : estimateTime dist [] = dist.
Proof. unfold estimateTime. cbn [length Nat.eqb]. lra. Qed.

Lemma estimateTime_cons (dist : R) (segs : list RouteSegment) :
  segs <> [] -> estimateTime dist segs = dist / Rmax (speedFactor segs) 0.2.
Proof.
  intros H. unfold estimateTime. destruct segs; [contradiction | reflexivity].
Qed.

Lemma div_le_floor (d f g : R) : 0 <= d -> 0 < g -> g <= f -> d / f <= d / g.
Proof.
  intros Hd Hg Hf. unfold Rdiv. apply Rmult_le_compat_l; [assumption |].
  apply Rinv_le_contravar; assumption.
Qed.

(** C3, as the code has it: for a non-empty segment list [estimateTime]
    divides the distance by [max(sr*1.0 + cr*0.65 + hr*0.35, 0.2)], the
    ratios being counts over the number of segments; for the empty list it
    returns the distance; in both cases the result is at most [d / 0.2]. *)
Theorem estimateTime_speed_floor (d : R) (segs : list RouteSegment) :
  0 <= d ->
  (segs <> [] ->
   let n := INR (length segs) in
   let sr := INR (countTag safe segs) / n in
   let cr := INR (countTag caution segs) / n in
   let hr := INR (countTag hazard segs) / n in
   estimateTime d segs = d / Rmax (sr * 1.0 + cr * 0.65 + hr * 0.35) 0.2) /\
  (segs = [] -> estimateTime d segs = d) /\
  estimateTime d segs <= d / 0.2.
Proof.
  intros Hd. split; [| split].
  - intros H. cbv zeta. now rewrite estimateTime_cons.
  - intros ->. apply estimateTime_nil.
  - destruct segs as [| s segs].
    + rewrite estimateTime_nil. lra.
    + rewrite estimateTime_cons by discriminate.
      apply div_le_floor; [assumption | lra | apply Rmax_r].
Qed.

Lemma estimateTime_speed_floor_witness :
  0 <= 100 /\ estimateTime 100 [segOf hazard; segOf hazard] <= 100 / 0.2.
Proof.
  split; [lra |]. apply (estimateTime_speed_floor 100 [segOf hazard; segOf hazard]). lra.
Defined.

(** C3 as stated fails on the empty segment list: [estimateTime] returns the
    distance itself, not the distance over [max(..., 0.2)]. *)
Lemma estimateTime_empty_counterexample :
  estimateTime 1 [] = 1 /\
  1 / Rmax (tagRatio safe [] * 1.0 + tagRatio caution [] * 0.65 + tagRatio hazard [] * 0.35) 0.2 = 5 /\
  estimateTime 1 [] <>
    1 / Rmax (tagRatio safe [] * 1.0 + tagRatio caution [] * 0.65 + tagRatio hazard [] * 0.35) 0.2.
Proof.
  assert (H : 1 / Rmax (tagRatio safe [] * 1.0 + tagRatio caution [] * 0.65
                        + tagRatio hazard [] * 0.35) 0.2 = 5).
  { fold (speedFactor []). rewrite speedFactor_nil, Rmax_right by lra. lra. }
  split; [apply estimateTime_nil |]. split; [exact H |].
  rewrite H, estimateTime_nil. lra.
Qed.

(** C10: for a non-empty segment list the three ratios sum to 1, the weighted
    factor is at least 0.35, the maximum with 0.2 is the factor itself, and
    the estimate is at most [d / 0.35] for every [d >= 0]. *)
Theorem speed_floor_unreachable (segs : list RouteSegment) :
  segs <> [] ->
  tagRatio safe segs + tagRatio caution segs + tagRatio hazard segs = 1 /\
  0.35 <= tagRatio safe segs * 1.0 + tagRatio caution segs * 0.65 + tagRatio hazard segs * 0.35 /\
  Rmax (tagRatio safe segs * 1.0 + tagRatio caution segs * 0.65 + tagRatio hazard segs * 0.35) 0.2
    = tagRatio safe segs * 1.0 + tagRatio caution segs * 0.65 + tagRatio hazard segs * 0.35 /\
  forall d : R, 0 <= d -> estimateTime d segs <= d / 0.35.
Proof.
  intros H. pose proof (speedFactor_lower segs H) as Hlow. unfold speedFactor in Hlow.
  split; [now apply tagRatio_total |]. split; [exact Hlow |]. split.
  - apply Rmax_left. lra.
  - intros d Hd. rewrite estimateTime_cons by assumption. unfold speedFactor.
    rewrite Rmax_left by lra. apply div_le_floor; [assumption | lra | exact Hlow].
Qed.

Lemma speed_floor_unreachable_witness :
  [segOf hazard; segOf hazard] <> [] /\
  estimateTime 70 [segOf hazard; segOf hazard] <= 70 / 0.35.
Proof.
  split; [discriminate |].
  destruct (speed_floor_unreachable [segOf hazard; segOf hazard]) as (_ & _ & _ & H);
    [discriminate |].
  apply H. lra.
Defined.

(** ** Warnings *)

Example hazardLine_plural :
  hazardLine 1 = "⚠️ 1 accessibility barrier on this route"%string /\
  hazardLine 12 = "⚠️ 12 accessibility barriers on this route"%string.
Proof. split; reflexivity. Qed.

Lemma buildWarnings_cases (segs : list RouteSegment) :
  buildWarnings segs =
  (if (0 <? countTag hazard segs)%nat then [hazardLine (countTag hazard segs)] else []) ++
  (if (0 <? countTag caution segs)%nat then [cautionLine (countTag caution segs)] else []) ++
  [genericAdvisory].
Proof.
  unfold buildWarnings. cbv zeta.
  destruct (countTag hazard segs) as [| hc]; destruct (countTag caution segs) as [| cc];
    reflexivity.
Qed.

Lemma classify_origin_chunk (cs : list coord) :
  classifySeg (origin :: cs) hazards6 = hazard.
Proof.
  unfold hazards6. cbn [classifySeg scanCoords]. rewrite near_same; reflexivity.
Qed.

Lemma classify_antimeridian_chunk :
  classifySeg [antimeridian; antimeridian] hazards6 = caution.
Proof.
  unfold hazards6. cbn [classifySeg scanCoords].
  rewrite near_antimeridian_origin by reflexivity.
  rewrite near_same; reflexivity.
Qed.

Lemma segments_path6 :
  map accessibility (segments (buildResult path6 100 hazards6)) = [hazard; hazard; caution].
Proof.
  unfold buildResult. cbn [segments].
  change (segLoop (mkSegment hazards6) (length path6) 0 (chunkSize (length path6)) path6)
    with [mkSegment hazards6 [origin; origin; origin];
          mkSegment hazards6 [origin; origin; antimeridian];
          mkSegment hazards6 [antimeridian; antimeridian]].
  cbn [map mkSegment accessibility].
  now rewrite !classify_origin_chunk, classify_antimeridian_chunk.
Qed.

Lemma countTag_map (t : Accessibility) (segs : list RouteSegment) :
  countTag t segs = length (filter (fun a => Accessibility_eqb a t) (map accessibility segs)).
Proof.
  unfold countTag. induction segs as [| s segs IH]; [reflexivity |].
  cbn [filter map]. destruct (Accessibility_eqb (accessibility s) t); cbn [length]; now rewrite IH.
Qed.

(** C7, as the code has it: the warnings are, in this order, the line
    "⚠️ {hc} accessibility barrier on this route" (with "barriers" when
    [hc > 1]) exactly when the hazard count [hc] is positive, the line
    "🔶 {cc} caution area — proceed with care" (with "areas" when [cc > 1])
    exactly when the caution count [cc] is positive, and always the generic
    advisory, [{hc}] and [{cc}] being the counts in decimal; with 2 hazard
    segments and 1 caution segment they are exactly three strings. *)
Theorem warnings_order (coords : list coord) (dist : R) (hazards : list HazardPoint) :
  let r := buildResult coords dist hazards in
  let hc := countTag hazard (segments r) in
  let cc := countTag caution (segments r) in
  warnings r =
    (if (0 <? hc)%nat
     then [("⚠️ " ++ NilEmpty.string_of_uint (Nat.to_uint hc) ++ " accessibility barrier"
            ++ (if (1 <? hc)%nat then "s" else "") ++ " on this route")%string]
     else []) ++
    (if (0 <? cc)%nat
     then [("🔶 " ++ NilEmpty.string_of_uint (Nat.to_uint cc) ++ " caution area"
            ++ (if (1 <? cc)%nat then "s" else "") ++ " — proceed with care")%string]
     else []) ++
    ["Verify accessibility features on ground"%string] /\
  (hc = 1%nat -> cc = 0%nat ->
   warnings r = [ "⚠️ 1 accessibility barrier on this route"%string;
                  "Verify accessibility features on ground"%string ]) /\
  (hc = 2%nat -> cc = 1%nat ->
   warnings r = [ "⚠️ 2 accessibility barriers on this route"%string;
                  "🔶 1 caution area — proceed with care"%string;
                  "Verify accessibility features on ground"%string ]).
Proof.
  intros r hc cc.
  assert (H : warnings r =
              (if (0 <? hc)%nat then [hazardLine hc] else []) ++
              (if (0 <? cc)%nat then [cautionLine cc] else []) ++ [genericAdvisory])
    by apply buildWarnings_cases.
  split; [| split].
  - rewrite H. unfold hazardLine, cautionLine, showNat, genericAdvisory. reflexivity.
  - intros Hh Hc. rewrite H, Hh, Hc. reflexivity.
  - intros Hh Hc. rewrite H, Hh, Hc. reflexivity.
Qed.

Lemma warnings_order_witness :
  countTag hazard (segments (buildResult path6 100 hazards6)) = 2%nat /\
  countTag caution (segments (buildResult path6 100 hazards6)) = 1%nat /\
  warnings (buildResult path6 100 hazards6) =
    [ "⚠️ 2 accessibility barriers on this route"%string;
      "🔶 1 caution area — proceed with care"%string;
      "Verify accessibility features on ground"%string ].
Proof.
  assert (Hh : countTag hazard (segments (buildResult path6 100 hazards6)) = 2%nat)
    by (rewrite countTag_map, segments_path6; reflexivity).
  assert (Hc : countTag caution (segments (buildResult path6 100 hazards6)) = 1%nat)
    by (rewrite countTag_map, segments_path6; reflexivity).
  split; [exact Hh |]. split; [exact Hc |].
  destruct (warnings_order path6 100 hazards6) as (_ & _ & H). apply H; assumption.
Defined.

Lemma warnings_path6 :
  warnings (buildResult path6 100 hazards6) =
    [ "⚠️ 2 accessibility barriers on this route"%string;
      "🔶 1 caution area — proceed with care"%string;
      "Verify accessibility features on ground"%string ].
Proof.
  change (warnings (buildResult path6 100 hazards6))
    with (buildWarnings (segments (buildResult path6 100 hazards6))).
  rewrite buildWarnings_cases, !countTag_map, segments_path6. reflexivity.
Qed.

(** C7 as stated fails on the text of the lines: for the route of 2 hazard
    segments and 1 caution segment the hazard line is
    "⚠️ 2 accessibility barriers on this route", and neither
    "2 accessibility barrier(s) on this route" nor
    "1 caution area(s) — proceed with care" is among the warnings. *)
Lemma warnings_text_counterexample :
  countTag hazard (segments (buildResult path6 100 hazards6)) = 2%nat /\
  countTag caution (segments (buildResult path6 100 hazards6)) = 1%nat /\
  nth 0 (warnings (buildResult path6 100 hazards6)) EmptyString =
    "⚠️ 2 accessibility barriers on this route"%string /\
  ~ In "2 accessibility barrier(s) on this route"%string
       (warnings (buildResult path6 100 hazards6)) /\
  ~ In "1 caution area(s) — proceed with care"%string
       (warnings (buildResult path6 100 hazards6)).
Proof.
  split; [rewrite countTag_map, segments_path6; reflexivity |].
  split; [rewrite countTag_map, segments_path6; reflexivity |].
  rewrite warnings_path6.
  split; [reflexivity |].
  split; intros [H | [H | [H | []]]]; discriminate.
Qed.

(** ** Fallback route *)

Lemma fallbackCoords_length (start end_ : LatLng) :
  length (fallbackCoords start end_) = 27%nat.
Proof. reflexivity. Qed.

Lemma fallbackCoords_first (start end_ : LatLng) :
  hd_error (fallbackCoords start end_) = Some (ll_lat start, ll_lng start).
Proof.
  unfold fallbackCoords. cbn [seq map app hd_error INR]. do 2 f_equal. field.
Qed.

Lemma fallbackCoords_last (start end_ : LatLng) (d : coord) :
  last (fallbackCoords start end_) d = (ll_lat end_, ll_lng end_).
Proof.
  unfold fallbackCoords. cbv zeta. rewrite app_assoc. apply last_last.
Qed.

(** C4, as the code has it: on a provider failure the path built for
    start = (27.6196, 85.5385) and end = (27.6200, 85.5395) starts at start,
    ends at end and has 27 points (13 + 13 + 1, the corner being pushed by
    both loops); the reported distance is the start-to-end distance times
    1.25. *)
Theorem fallback_scenario (distanceTo : LatLng -> LatLng -> R)
        (hazards : list HazardPoint) :
  (forall a b, distanceTo a b = haversine (ll_lat a, ll_lng a) (ll_lat b, ll_lng b)) ->
  let path := fallbackCoords kuStart kuEnd in
  let r := calcRoute distanceTo OsrmFail kuStart kuEnd hazards in
  r = buildResult path (distanceTo kuStart kuEnd * 1.25) hazards /\
  hd_error path = Some (27.6196, 85.5385) /\
  last path (0, 0) = (27.6200, 85.5395) /\
  length path = 27%nat /\
  nth 12 path (0, 0) = nth 13 path (0, 0) /\
  totalDistance r = haversine (27.6196, 85.5385) (27.6200, 85.5395) * 1.25.
Proof.
  intros Hd path r. split; [reflexivity |].
  split; [apply fallbackCoords_first |].
  split; [apply fallbackCoords_last |].
  split; [reflexivity |]. split.
  - unfold path, fallbackCoords. cbn [seq map app nth INR kuStart kuEnd ll_lat ll_lng].
    f_equal; lra.
  - unfold r, calcRoute, buildResult. cbn [totalDistance]. rewrite Hd. reflexivity.
Qed.

Lemma fallback_scenario_witness :
  length (fallbackCoords kuStart kuEnd) = 27%nat /\
  totalDistance (calcRoute haversineLatLng OsrmFail kuStart kuEnd []) =
    haversine (27.6196, 85.5385) (27.6200, 85.5395) * 1.25.
Proof.
  destruct (fallback_scenario haversineLatLng []) as (_ & _ & _ & Hl & _ & Ht).
  - intros a b. reflexivity.
  - split; [exact Hl | exact Ht].
Defined.

(** C4 as stated fails: the path has 27 points, not 26. *)
Lemma fallback_length_counterexample :
  length (fallbackCoords kuStart kuEnd) = 27%nat /\
  length (fallbackCoords kuStart kuEnd) <> 26%nat.
Proof. split; [reflexivity | cbn; lia]. Qed.

(** ** Report creation *)

Module BackendFacts.
Import Backend.

Section ControllerFacts.
Context {Store Row : Type}.
Variable pool_query : Store -> list JsValue -> Store * option (list Row).

Lemma createReport_rejected (st : Store) (req : Request) :
  missingField (body req) = true ->
  createReport pool_query st req =
  mkOutcome st [] (mkResponse 400 (ErrorJson "Missing required fields")).
Proof.
  unfold missingField, createReport. cbv zeta. intros ->. reflexivity.
Qed.

Lemma createReport_accepted (st : Store) (req : Request) :
  missingField (body req) = false ->
  exists params,
    queries (createReport pool_query st req) = [params] /\
    nth 4 params JsUndefined = lng (body req) /\
    nth 5 params JsUndefined = lat (body req) /\
    store (createReport pool_query st req) = fst (pool_query st params) /\
    (status (response (createReport pool_query st req)) = 201%nat \/
     status (response (createReport pool_query st req)) = 500%nat).
Proof.
  unfold missingField, createReport. cbv zeta. intros ->.
  match goal with
  | |- context [pool_query st ?p] =>
      exists p; destruct (pool_query st p) as [st' [rows |]]
  end; cbn; repeat split; auto.
Qed.
End ControllerFacts.

Lemma missingField_iff (b : ReqBody) :
  missingField b = true <->
  truthy (issue_type b) = false \/ truthy (description b) = false \/
  truthy (lat b) = false \/ truthy (lng b) = false.
Proof.
  unfold missingField.
  destruct (truthy (issue_type b)), (truthy (description b)), (truthy (lat b)), (truthy (lng b));
    cbn; intuition discriminate.
Qed.

(** C9, as the code has it: a request whose issue type, description,
    latitude or longitude is missing or falsy (undefined, null, the empty
    string, 0, NaN, false) is answered 400 'Missing required fields' with no
    query issued and the store untouched; any other request, whatever its
    coordinates hold, issues the INSERT once and is answered 201 or 500. *)
Theorem createReport_validation (Store Row : Type)
        (pool_query : Store -> list JsValue -> Store * option (list Row))
        (st : Store) (req : Request) :
  (truthy (issue_type (body req)) = false \/ truthy (description (body req)) = false \/
   truthy (lat (body req)) = false \/ truthy (lng (body req)) = false ->
   createReport pool_query st req =
   mkOutcome st [] (mkResponse 400 (ErrorJson "Missing required fields"))) /\
  (truthy (issue_type (body req)) = true -> truthy (description (body req)) = true ->
   truthy (lat (body req)) = true -> truthy (lng (body req)) = true ->
   exists params,
     queries (createReport pool_query st req) = [params] /\
     nth 4 params JsUndefined = lng (body req) /\
     nth 5 params JsUndefined = lat (body req) /\
     (status (response (createReport pool_query st req)) = 201%nat \/
      status (response (createReport pool_query st req)) = 500%nat)) /\
  (forall v, In v [JsUndefined; JsNull; JsStr ""; JsNum NaN; JsNum (Num 0); JsBool false] ->
             truthy v = false).
Proof.
  split; [| split].
  - intros H. apply createReport_rejected. now apply missingField_iff.
  - intros H1 H2 H3 H4.
    destruct (createReport_accepted pool_query st req) as (p & Hq & H4' & H5' & _ & Hs).
    + unfold missingField. now rewrite H1, H2, H3, H4.
    + exists p. auto.
  - intros v Hv. cbn in Hv. intuition (subst; reflexivity).
Qed.

Lemma createReport_validation_witness :
  createReport sampleQuery [] missingLat =
  mkOutcome [] [] (mkResponse 400 (ErrorJson "Missing required fields")).
Proof.
  apply (createReport_validation _ _ sampleQuery [] missingLat).
  right. right. left. reflexivity.
Defined.

(** C9 as stated fails on non-numeric coordinates: with [lat = 'abc'] and
    [lng = 'def'] the INSERT is issued and the answer is 500, not a
    validation error. *)
Lemma createReport_text_coordinates_counterexample :
  isNumber (lat (body textCoordinates)) = false /\
  isNumber (lng (body textCoordinates)) = false /\
  queries (createReport sampleQuery [] textCoordinates) =
    [[JsNull; JsStr "pothole"; JsStr "Deep hole at the gate"; JsNull; JsStr "def"; JsStr "abc"]] /\
  response (createReport sampleQuery [] textCoordinates) =
    mkResponse 500 (ErrorJson "Failed to create report") /\
  status (response (createReport sampleQuery [] textCoordinates)) <> 400%nat.
Proof. repeat split. cbn. lia. Qed.

End BackendFacts.

(** ** Classification: further properties *)

Lemma scanCoords_existsb (h : HazardPoint) (coords : list coord) :
  scanCoords h coords =
  if existsb (fun c => near c h) coords then Some (tagOfSeverity (hp_type h)) else None.
Proof.
  induction coords as [| c cs IH]; [reflexivity |].
  cbn [scanCoords existsb]. destruct (near c h); [reflexivity | exact IH].
Qed.

Lemma existsb_same_points {A : Type} (f : A -> bool) (l l' : list A) :
  (forall x, In x l <-> In x l') -> existsb f l = existsb f l'.
Proof.
  intros H. destruct (existsb f l) eqn:E; symmetry.
  - apply existsb_exists in E as (x & Hx & Hf). apply existsb_exists. exists x.
    split; [now apply H | assumption].
  - destruct (existsb f l') eqn:E'; [| reflexivity].
    apply existsb_exists in E' as (x & Hx & Hf).
    assert (existsb f l = true) by (apply existsb_exists; exists x; split; [now apply H | assumption]).
    congruence.
Qed.

Lemma classifySeg_found (coords : list coord) (hazards : list HazardPoint) :
  classifySeg coords hazards = safe \/
  exists h c, In h hazards /\ In c coords /\ near c h = true /\
              classifySeg coords hazards = tagOfSeverity (hp_type h).
Proof.
  induction hazards as [| h hs IH]; [now left |].
  cbn [classifySeg]. destruct (scanCoords_cases h coords) as [(-> & c & Hc & Hn) | (-> & _)].
  - right. exists h, c. repeat split; [now left | assumption | assumption].
  - destruct IH as [IH | (h' & c & Hh & Hc & Hn & E)]; [now left | right].
    exists h', c. repeat split; [now right | assumption | assumption | assumption].
Qed.

(** X1: a chunk is tagged 'hazard' (or 'caution') only when a point of that
    severity lies less than 30 m from one of its points. *)
Theorem classifySeg_sound (coords : list coord) (hazards : list HazardPoint)
        (t : Accessibility) :
  classifySeg coords hazards = t -> t <> safe ->
  exists h c, In h hazards /\ In c coords /\
              haversine c (hp_lat h, hp_lng h) < 30 /\
              tagOfSeverity (hp_type h) = t /\ hp_type h <> sev_info.
Proof.
  intros E Ht. destruct (classifySeg_found coords hazards) as [H | (h & c & Hh & Hc & Hn & H)].
  - congruence.
  - exists h, c. repeat split; try assumption.
    + now apply near_iff.
    + congruence.
    + intros Hi. rewrite Hi in H. cbn in H. congruence.
Qed.

Lemma classifySeg_sound_witness :
  exists h c, In h sampleHazards /\ In c [origin] /\
              haversine c (hp_lat h, hp_lng h) < 30 /\
              tagOfSeverity (hp_type h) = caution /\ hp_type h <> sev_info.
Proof.
  apply (classifySeg_sound [origin] sampleHazards caution); [| discriminate].
  unfold sampleHazards. cbn [classifySeg scanCoords].
  rewrite near_origin_antimeridian by reflexivity.
  rewrite near_same; reflexivity.
Defined.

(** X2: the tag depends on which points a chunk holds, not on their order or
    repetition. *)
Theorem classifySeg_same_points (coords coords' : list coord) (hazards : list HazardPoint) :
  (forall c, In c coords <-> In c coords') ->
  classifySeg coords hazards = classifySeg coords' hazards.
Proof.
  intros H. induction hazards as [| h hs IH]; [reflexivity |].
  cbn [classifySeg]. rewrite !scanCoords_existsb.
  rewrite (existsb_same_points (fun c => near c h) coords coords' H).
  destruct (existsb _ coords'); [reflexivity | exact IH].
Qed.

Lemma classifySeg_same_points_witness :
  classifySeg [origin; antimeridian] sampleHazards =
  classifySeg [antimeridian; origin; origin] sampleHazards.
Proof.
  apply classifySeg_same_points. intros c. cbn [In]. tauto.
Defined.

(** ** Time estimate: further properties *)

Lemma weightSum_counts (segs : list RouteSegment) :
  INR (countTag safe segs) * 1.0 + INR (countTag caution segs) * 0.65
  + INR (countTag hazard segs) * 0.35 = weightSum segs.
Proof.
  induction segs as [| s segs IH]; [cbn; lra |].
  rewrite !countTag_cons, !plus_INR. cbn [weightSum fold_right]. fold (weightSum segs).
  rewrite <- IH. destruct (accessibility s); cbn [Accessibility_eqb tagWeight INR]; lra.
Qed.

Lemma speedFactor_weightSum (segs : list RouteSegment) :
  speedFactor segs = weightSum segs / INR (length segs).
Proof.
  rewrite <- weightSum_counts. unfold speedFactor, tagRatio, Rdiv. ring.
Qed.

Lemma weightSum_bounds (segs : list RouteSegment) :
  0.35 * INR (length segs) <= weightSum segs <= INR (length segs).
Proof.
  induction segs as [| s segs IH]; [cbn; lra |].
  cbn [weightSum fold_right]. fold (weightSum segs).
  change (length (s :: segs)) with (S (length segs)). rewrite S_INR.
  destruct (accessibility s); cbn [tagWeight]; lra.
Qed.

Lemma speedFactor_upper (segs : list RouteSegment) : segs <> [] -> speedFactor segs <= 1.
Proof.
  intros H. rewrite speedFactor_weightSum. pose proof (length_pos_INR segs H) as Hn.
  pose proof (weightSum_bounds segs) as [_ Hw].
  apply Rmult_le_reg_r with (INR (length segs)); [assumption |].
  unfold Rdiv. rewrite Rmult_assoc, Rinv_l by lra. lra.
Qed.

(** X3: the estimate is never below the distance itself: no route is
    travelled faster than the nominal speed. *)
Theorem estimateTime_at_least_distance (d : R) (segs : list RouteSegment) :
  0 <= d -> d <= estimateTime d segs.
Proof.
  intros Hd. destruct segs as [| s segs].
  - rewrite estimateTime_nil. lra.
  - rewrite estimateTime_cons by discriminate.
    pose proof (speedFactor_upper (s :: segs) ltac:(discriminate)) as Hu.
    assert (Hm : 0 < Rmax (speedFactor (s :: segs)) 0.2 <= 1).
    { split; [pose proof (Rmax_r (speedFactor (s :: segs)) 0.2); lra |].
      apply Rmax_lub; lra. }
    replace d with (d / 1) at 1 by field.
    apply div_le_floor; lra.
Qed.

Lemma estimateTime_at_least_distance_witness :
  0 <= 120 /\ 120 <= estimateTime 120 [segOf safe; segOf hazard; segOf caution].
Proof.
  split; [lra |]. apply estimateTime_at_least_distance. lra.
Defined.

Lemma countTag_all (t t' : Accessibility) (segs : list RouteSegment) :
  Forall (fun s => accessibility s = t) segs ->
  countTag t' segs = if Accessibility_eqb t t' then length segs else 0%nat.
Proof.
  induction 1 as [| s segs Hs _ IH]; [now destruct (Accessibility_eqb t t') |].
  rewrite countTag_cons, IH, Hs. destruct (Accessibility_eqb t t'); cbn [length]; lia.
Qed.

(** X4: a route whose segments all carry one tag takes the distance over
    that tag's weight: [d] for safe, [d / 0.65] for caution, [d / 0.35] for
    hazard. *)
Theorem estimateTime_uniform (d : R) (t : Accessibility) (segs : list RouteSegment) :
  segs <> [] -> Forall (fun s => accessibility s = t) segs ->
  estimateTime d segs =
    d / match t with safe => 1.0 | caution => 0.65 | hazard => 0.35 end.
Proof.
  intros Hne Hall. rewrite estimateTime_cons by assumption.
  pose proof (length_pos_INR segs Hne) as Hn.
  assert (Hf : speedFactor segs = tagWeight t).
  { unfold speedFactor, tagRatio.
    rewrite !(countTag_all t) by assumption.
    destruct t; cbn [Accessibility_eqb tagWeight INR]; field; lra. }
  rewrite Hf. f_equal. destruct t; cbn [tagWeight]; apply Rmax_left; lra.
Qed.

Lemma estimateTime_uniform_witness :
  estimateTime 70 [segOf hazard; segOf hazard; segOf hazard] = 70 / 0.35.
Proof.
  apply (estimateTime_uniform 70 hazard); [discriminate |].
  repeat constructor.
Defined.

Lemma weightSum_monotone (segs segs' : list RouteSegment) :
  Forall2 (fun s s' => (tagRank (accessibility s) <= tagRank (accessibility s'))%nat)
          segs segs' ->
  weightSum segs' <= weightSum segs.
Proof.
  induction 1 as [| s s' segs segs' Hs _ IH]; [lra |].
  cbn [weightSum fold_right]. fold (weightSum segs) (weightSum segs').
  destruct (accessibility s), (accessibility s'); cbn [tagRank tagWeight] in *; try lia; lra.
Qed.

(** X5: making segments more severe, position by position, never shortens
    the estimate. *)
Theorem estimateTime_monotone (d : R) (segs segs' : list RouteSegment) :
  0 <= d ->
  Forall2 (fun s s' => (tagRank (accessibility s) <= tagRank (accessibility s'))%nat)
          segs segs' ->
  estimateTime d segs <= estimateTime d segs'.
Proof.
  intros Hd H. pose proof (weightSum_monotone segs segs' H) as Hw.
  pose proof (Forall2_length H) as Hl.
  destruct segs as [| s segs]; destruct segs' as [| s' segs']; try discriminate.
  - lra.
  - rewrite !estimateTime_cons by discriminate.
    assert (Hn : 0 < INR (length (s :: segs))) by (apply length_pos_INR; discriminate).
    assert (Hf : speedFactor (s' :: segs') <= speedFactor (s :: segs)).
    { rewrite !speedFactor_weightSum, <- Hl. unfold Rdiv.
      apply Rmult_le_compat_r; [left; now apply Rinv_0_lt_compat | assumption]. }
    apply div_le_floor; [assumption | |].
    + pose proof (Rmax_r (speedFactor (s' :: segs')) 0.2). lra.
    + apply Rmax_lub; [| apply Rmax_r].
      eapply Rle_trans; [exact Hf | apply Rmax_l].
Qed.

Lemma estimateTime_monotone_witness :
  estimateTime 100 [segOf safe; segOf caution] <= estimateTime 100 [segOf hazard; segOf caution].
Proof.
  apply estimateTime_monotone; [lra |].
  repeat constructor; cbn; lia.
Defined.

(** ** Scoring: further properties *)

(** X6: a path of fewer than 2 points gives a result without segments: the
    estimate is the distance, the only warning is the generic advisory, yet
    the elevation profile still has one entry per point. *)
Theorem buildResult_short_path (coords : list coord) (dist : R) (hazards : list HazardPoint) :
  (length coords < 2)%nat ->
  let r := buildResult coords dist hazards in
  segments r = [] /\ totalDistance r = dist /\ estimatedTime r = dist /\
  warnings r = ["Verify accessibility features on ground"%string] /\
  length (elevationProfile r) = length coords.
Proof.
  intros Hl r.
  assert (Hs : segments r = []).
  { unfold r, buildResult. cbn [segments].
    destruct (length coords) as [| n] eqn:E; [reflexivity |]. apply segLoop_done. lia. }
  split; [exact Hs |]. split; [reflexivity |]. split; [| split].
  - change (estimatedTime r) with (estimateTime dist (segments r)).
    rewrite Hs. apply estimateTime_nil.
  - change (warnings r) with (buildWarnings (segments r)). rewrite Hs. reflexivity.
  - unfold r, buildResult. cbn [elevationProfile]. now rewrite length_map, length_seq.
Qed.

Lemma buildResult_short_path_witness :
  segments (buildResult [origin] 50 sampleHazards) = [] /\
  estimatedTime (buildResult [origin] 50 sampleHazards) = 50.
Proof.
  destruct (buildResult_short_path [origin] 50 sampleHazards) as (H1 & _ & H2 & _).
  - cbn. lia.
  - split; assumption.
Defined.

Lemma chunks_nonempty {A : Type} (coords : list A) :
  (2 <= length coords)%nat -> (1 <= length (chunks coords))%nat.
Proof.
  intros Hl. apply (chunks_length_iff coords 0). lia.
Qed.

Lemma chunks_nth_length {A : Type} (coords : list A) (k : nat) :
  (k < length (chunks coords))%nat ->
  length (nth k (chunks coords) []) =
  (Nat.min (k * chunkSize (length coords) + chunkSize (length coords) + 1) (length coords)
   - k * chunkSize (length coords))%nat.
Proof.
  intros Hk. rewrite chunks_nth by assumption. apply slice_length. lia.
Qed.

(** X7: a path of at least 2 points gives between 1 and 10 segments; every
    segment but the last has exactly [chunk + 1] points, the last has between
    2 and [chunk + 1]. *)
Theorem buildResult_segment_sizes (coords : list coord) (dist : R)
        (hazards : list HazardPoint) :
  (2 <= length coords)%nat ->
  let segs := segments (buildResult coords dist hazards) in
  let chunk := chunkSize (length coords) in
  (1 <= length segs <= 10)%nat /\
  (forall k, (S k < length segs)%nat ->
             length (coordinates (nth k segs (mkSegment hazards []))) = S chunk) /\
  (forall k, (S k = length segs)%nat ->
             (2 <= length (coordinates (nth k segs (mkSegment hazards []))) <= S chunk)%nat).
Proof.
  intros Hl segs chunk.
  assert (Hc : map coordinates segs = chunks coords) by apply segments_coordinates.
  assert (Hlen : length segs = length (chunks coords))
    by (rewrite <- Hc; now rewrite length_map).
  assert (Hnth : forall k, coordinates (nth k segs (mkSegment hazards [])) =
                           nth k (chunks coords) []).
  { intros k. rewrite <- Hc. change (@nil coord) with (coordinates (mkSegment hazards [])).
    now rewrite map_nth. }
  split; [| split].
  - rewrite Hlen. split; [now apply chunks_nonempty |].
    pose proof (chunks_length_le coords). pose proof (chunkCount_bounds (length coords)). lia.
  - intros k Hk. rewrite Hnth, chunks_nth_length by lia.
    rewrite Hlen in Hk. apply chunks_length_iff in Hk. fold chunk in Hk |- *. lia.
  - intros k Hk. rewrite Hnth, chunks_nth_length by lia.
    assert (Hk' : (k < length (chunks coords))%nat) by lia.
    apply chunks_length_iff in Hk'. fold chunk in Hk' |- *.
    pose proof (chunkSize_pos (length coords) ltac:(lia)). fold chunk in H. lia.
Qed.

Lemma buildResult_segment_sizes_witness :
  (1 <= length (segments (buildResult path7 6 [])) <= 10)%nat.
Proof.
  apply (buildResult_segment_sizes path7 6 []). cbn. lia.
Defined.

Lemma length_flat_map_rejoin {A : Type} (cs : list (list A)) :
  Forall (fun sl => (2 <= length sl)%nat) cs -> cs <> [] ->
  length (flat_map (fun sl => sl) cs) = (length (rejoin cs) + length cs - 1)%nat.
Proof.
  intros Hall Hne. destruct cs as [| c rest]; [contradiction |].
  cbn [flat_map rejoin length]. rewrite !length_app.
  inversion Hall as [| ? ? _ Hrest]; subst. clear Hall Hne.
  induction rest as [| c' rest IH]; [cbn; lia |].
  inversion Hrest as [| ? ? Hc' Hrest']; subst.
  specialize (IH Hrest'). cbn [flat_map length]. rewrite !length_app.
  destruct c' as [| x c']; [cbn in Hc'; lia |]. cbn [tl length] in *. lia.
Qed.

Lemma flat_map_as_map {A B : Type} (f : A -> list B) (l : list A) :
  flat_map f l = flat_map (fun sl => sl) (map f l).
Proof.
  induction l as [| x l IH]; [reflexivity |]. cbn [flat_map map]. now rewrite IH.
Qed.

(** X8: for a path of at least 2 points the GPX export holds one track point
    per path point plus one more for every segment after the first: each
    point shared by two segments is written twice. *)
Theorem gpxPoints_count (showNumber : R -> string) (coords : list coord) (dist : R)
        (hazards : list HazardPoint) :
  (2 <= length coords)%nat ->
  length (gpxPoints showNumber (buildResult coords dist hazards)) =
  (length coords + length (segments (buildResult coords dist hazards)) - 1)%nat.
Proof.
  intros Hl. unfold gpxPoints. rewrite length_map.
  rewrite flat_map_as_map, segments_coordinates.
  rewrite length_flat_map_rejoin.
  - rewrite chunks_rejoin by assumption.
    rewrite <- (length_map coordinates (segments _)), segments_coordinates. reflexivity.
  - apply chunks_all_ge2.
  - pose proof (chunks_nonempty coords Hl). destruct (chunks coords); [cbn in *; lia | discriminate].
Qed.

Lemma gpxPoints_count_witness :
  length (gpxPoints (fun _ => "0"%string) (buildResult path7 6 [])) = 8%nat.
Proof.
  rewrite (gpxPoints_count _ path7 6 []) by (cbn; lia).
  rewrite <- (length_map coordinates), segments_coordinates. reflexivity.
Defined.

(** ** Elevation profile *)

(** X9: the elevation profile has one entry per path point; entry [i] lies
    at [i/len] of a positive distance, so the entries start at 0, grow
    strictly and stay below the total distance; every elevation lies between
    765 and 795. *)
Theorem elevationProfile_shape (coords : list coord) (dist : R) (hazards : list HazardPoint) :
  0 < dist ->
  let prof := elevationProfile (buildResult coords dist hazards) in
  length prof = length coords /\
  (forall i, (i < length coords)%nat ->
     0 <= fst (nth i prof (0, 0)) < dist /\ 765 <= snd (nth i prof (0, 0)) <= 795) /\
  (forall i j, (i < j < length coords)%nat ->
     fst (nth i prof (0, 0)) < fst (nth j prof (0, 0))) /\
  (coords <> [] -> fst (nth 0 prof (0, 0)) = 0).
Proof.
  intros Hd prof.
  set (f := fun i : nat => (INR i / INR (length coords) * dist, 780 + sin (INR i * 0.3) * 15)).
  assert (Hn : forall i, (i < length coords)%nat -> nth i prof (0, 0) = f i).
  { intros i Hi. unfold prof, buildResult. cbn [elevationProfile]. fold f.
    rewrite (nth_indep _ (0, 0) (f 0%nat)) by (now rewrite length_map, length_seq).
    rewrite map_nth, seq_nth by assumption. reflexivity. }
  assert (Hpos : forall i, (i < length coords)%nat -> 0 < INR (length coords)).
  { intros i Hi. apply lt_0_INR. lia. }
  split; [| split; [| split]].
  - unfold prof, buildResult. cbn [elevationProfile]. now rewrite length_map, length_seq.
  - intros i Hi. rewrite (Hn i Hi). unfold f. cbn [fst snd].
    pose proof (Hpos i Hi) as Hl. pose proof (pos_INR i) as H0.
    assert (Hlt : INR i < INR (length coords)) by now apply lt_INR.
    assert (Hq : 0 <= INR i / INR (length coords) < 1).
    { split.
      - apply Rmult_le_pos; [assumption | left; now apply Rinv_0_lt_compat].
      - apply Rmult_lt_reg_r with (INR (length coords)); [assumption |].
        unfold Rdiv. rewrite Rmult_assoc, Rinv_l by lra. lra. }
    pose proof (SIN_bound (INR i * 0.3)) as [Hs1 Hs2].
    repeat split; nra.
  - intros i j [Hij Hj]. rewrite (Hn i) by lia. rewrite (Hn j Hj). unfold f. cbn [fst].
    pose proof (Hpos j Hj) as Hl. assert (Hlt : INR i < INR j) by now apply lt_INR.
    apply Rmult_lt_compat_r; [assumption |].
    unfold Rdiv. apply Rmult_lt_compat_r; [now apply Rinv_0_lt_compat | assumption].
  - intros Hne. assert (Hl : (0 < length coords)%nat) by (destruct coords; [contradiction | cbn; lia]).
    rewrite (Hn 0%nat Hl). unfold f. cbn [fst INR]. unfold Rdiv. ring.
Qed.

Lemma elevationProfile_shape_witness :
  length (elevationProfile (buildResult path7 6 [])) = length path7.
Proof.
  apply (elevationProfile_shape path7 6 []). lra.
Defined.

(** ** Routing: further properties *)

Lemma buildResult_rejoin (coords : list coord) (dist : R) (hazards : list HazardPoint) :
  (2 <= length coords)%nat ->
  rejoin (map coordinates (segments (buildResult coords dist hazards))) = coords.
Proof. intros H. rewrite segments_coordinates. now apply chunks_rejoin. Qed.

(** X10: when the provider answers, the route follows the provider's
    geometry with every pair turned from [[lng, lat]] into [[lat, lng]], and
    reports the provider's distance; the start and end arguments and
    [distanceTo] play no part. *)
Theorem calcRoute_provider_route (distanceTo : LatLng -> LatLng -> R)
        (geometry : list (R * R)) (distance : R) (start end_ : LatLng)
        (hazards : list HazardPoint) :
  (2 <= length geometry)%nat ->
  let r := calcRoute distanceTo (OsrmRoute geometry distance) start end_ hazards in
  rejoin (map coordinates (segments r)) = map (fun c => (snd c, fst c)) geometry /\
  totalDistance r = distance /\
  (forall distanceTo' start' end', 
      calcRoute distanceTo' (OsrmRoute geometry distance) start' end' hazards = r).
Proof.
  intros Hl r. split; [| split].
  - unfold r, calcRoute. apply buildResult_rejoin. now rewrite length_map.
  - reflexivity.
  - reflexivity.
Qed.

Lemma calcRoute_provider_route_witness :
  rejoin (map coordinates
              (segments (calcRoute haversineLatLng (OsrmRoute sampleGeometry 75) kuStart kuEnd [])))
  = map (fun c => (snd c, fst c)) sampleGeometry.
Proof.
  apply (calcRoute_provider_route haversineLatLng sampleGeometry 75 kuStart kuEnd []).
  cbn. lia.
Defined.

Lemma fallbackCoords_nth_leg1 (start end_ : LatLng) (i : nat) (d : coord) :
  (i < 13)%nat ->
  nth i (fallbackCoords start end_) d =
  (ll_lat start + ((ll_lat start + ll_lat end_) / 2 - ll_lat start) * (INR i / 12),
   ll_lng start).
Proof.
  intros Hi. unfold fallbackCoords. cbv zeta.
  do 13 (destruct i as [| i]; [reflexivity |]). lia.
Qed.

Lemma fallbackCoords_nth_leg2 (start end_ : LatLng) (i : nat) (d : coord) :
  (i < 13)%nat ->
  nth (13 + i) (fallbackCoords start end_) d =
  ((ll_lat start + ll_lat end_) / 2,
   ll_lng start + (ll_lng end_ - ll_lng start) * (INR i / 12)).
Proof.
  intros Hi. unfold fallbackCoords. cbv zeta.
  do 13 (destruct i as [| i]; [reflexivity |]). lia.
Qed.

(** X11: for every start and end the fallback path has 27 points, runs from
    start to end, keeps start's longitude on its first 13 points and the
    middle latitude on the next 13, and starts its second leg at the corner
    (middle latitude, start's longitude). *)
Theorem fallbackCoords_shape (start end_ : LatLng) :
  let path := fallbackCoords start end_ in
  let mid := (ll_lat start + ll_lat end_) / 2 in
  length path = 27%nat /\
  nth 0 path (0, 0) = (ll_lat start, ll_lng start) /\
  nth 26 path (0, 0) = (ll_lat end_, ll_lng end_) /\
  (forall i, (i < 13)%nat -> snd (nth i path (0, 0)) = ll_lng start) /\
  (forall i, (13 <= i < 26)%nat -> fst (nth i path (0, 0)) = mid) /\
  nth 13 path (0, 0) = (mid, ll_lng start).
Proof.
  intros path mid. unfold path.
  split; [reflexivity |].
  split; [rewrite fallbackCoords_nth_leg1 by lia; cbn [INR]; f_equal; field |].
  split; [reflexivity |].
  split; [intros i Hi; now rewrite fallbackCoords_nth_leg1 |].
  split.
  { intros i Hi. replace i with (13 + (i - 13))%nat by lia.
    rewrite fallbackCoords_nth_leg2 by lia. reflexivity. }
  rewrite (fallbackCoords_nth_leg2 start end_ 0) by lia. f_equal. cbn [INR]. field.
Qed.

(** X12: on a provider failure the route always has exactly 5 segments, of
    7, 7, 7, 7 and 3 points, which together give the fallback path back. *)
Theorem fallback_five_segments (distanceTo : LatLng -> LatLng -> R) (start end_ : LatLng)
        (hazards : list HazardPoint) :
  let r := calcRoute distanceTo OsrmFail start end_ hazards in
  map (fun s => length (coordinates s)) (segments r) = [7; 7; 7; 7; 3]%nat /\
  rejoin (map coordinates (segments r)) = fallbackCoords start end_.
Proof.
  intros r. unfold r, calcRoute. split.
  - rewrite <- (map_map coordinates (@length coord)), segments_coordinates. reflexivity.
  - apply buildResult_rejoin. rewrite fallbackCoords_length. lia.
Qed.

(** ** Report storage *)

(** After [saveReport] the stored reports are the ones read before
    (none for a missing or unparsable item) followed by the new report, which
    carries the draft's fields with the generated id and timestamp. *)
Lemma saveReport_appends (id timestamp : string) (r : ReportDraft) (item : StoredItem) :
  let nr := snd (saveReport id timestamp r item) in
  getReports (fst (saveReport id timestamp r item)) = getReports item ++ [nr] /\
  ir_id nr = id /\ ir_timestamp nr = timestamp /\
  (ir_lat nr, ir_lng nr) = (rd_lat r, rd_lng r) /\
  ir_type nr = rd_type r /\ ir_description nr = rd_description r /\
  ir_photoDataUrl nr = rd_photoDataUrl r /\
  (getReports item = [] -> getReports (fst (saveReport id timestamp r item)) = [nr]).
Proof.
  cbn [saveReport fst snd getReports]. repeat split; try reflexivity.
  intros ->. reflexivity.
Qed.

Lemma filter_id_In (id : string) (l : list IssueReport) (r : IssueReport) :
  In r (filter (fun r => negb (String.eqb (ir_id r) id)) l) <-> In r l /\ ir_id r <> id.
Proof.
  rewrite filter_In. split; intros [H1 H2]; split; try assumption.
  - intros E. rewrite E, String.eqb_refl in H2. discriminate.
  - apply negb_true_iff. now apply String.eqb_neq.
Qed.

Lemma filter_id_fresh (id : string) (l : list IssueReport) :
  (forall r, In r l -> ir_id r <> id) ->
  filter (fun r => negb (String.eqb (ir_id r) id)) l = l.
Proof.
  intros H. induction l as [| x l IH]; [reflexivity |]. cbn [filter].
  assert (Hx : String.eqb (ir_id x) id = false) by (apply String.eqb_neq, H; now left).
  rewrite Hx. cbn [negb]. f_equal. apply IH. intros r Hr. apply H. now right.
Qed.

(** X13: [deleteReport] removes every stored report with the given id, also
    when several share it, and keeps all the others; with no such report the
    list read back is unchanged; deleting twice is deleting once. *)
Theorem deleteReport_removes (id : string) (item : StoredItem) :
  (forall r, In r (getReports (deleteReport id item)) <->
             In r (getReports item) /\ ir_id r <> id) /\
  ((forall r, In r (getReports item) -> ir_id r <> id) ->
   getReports (deleteReport id item) = getReports item) /\
  deleteReport id (deleteReport id item) = deleteReport id item.
Proof.
  split; [| split].
  - intros r. apply filter_id_In.
  - intros H. now apply filter_id_fresh.
  - unfold deleteReport. cbn [getReports]. f_equal. apply filter_id_fresh.
    intros r Hr. now apply filter_id_In in Hr.
Qed.

Lemma deleteReport_removes_witness :
  getReports (deleteReport "k3j9x2m1p" storedSample) = [] /\
  getReports (deleteReport "zzzzzzzzz" storedSample) = getReports storedSample.
Proof.
  split; [reflexivity |].
  apply (deleteReport_removes "zzzzzzzzz" storedSample).
  intros r [<- | []]. cbn. discriminate.
Defined.

(** X14: saving a report under an id no stored report has and then deleting
    that id gives back the reports read before. *)
Theorem save_then_delete (id timestamp : string) (r : ReportDraft) (item : StoredItem) :
  (forall x, In x (getReports item) -> ir_id x <> id) ->
  getReports (deleteReport id (fst (saveReport id timestamp r item))) = getReports item.
Proof.
  intros H. cbn [saveReport fst deleteReport getReports].
  rewrite filter_app, filter_id_fresh by assumption.
  cbn [filter ir_id]. rewrite String.eqb_refl. cbn [negb]. apply app_nil_r.
Qed.

Lemma save_then_delete_witness :
  getReports (deleteReport "a1b2c3d4e"
                (fst (saveReport "a1b2c3d4e" "2025-02-01T08:00:00.000Z" draftAtOrigin storedSample)))
  = getReports storedSample.
Proof.
  apply save_then_delete. intros x [<- | []]. cbn. discriminate.
Defined.

Lemma classifySeg_reports_hazard (chunk : list coord) (reports : list IssueReport) :
  (exists r, In r reports /\ In (ir_lat r, ir_lng r) chunk) ->
  classifySeg chunk (map hazardOfReport reports) = hazard.
Proof.
  induction reports as [| x reports IH]; intros (r & Hr & Hc); [destruct Hr |].
  cbn [map classifySeg].
  destruct (scanCoords_cases (hazardOfReport x) chunk) as [(-> & _) | (-> & Hfar)].
  - reflexivity.
  - destruct Hr as [-> | Hr].
    + specialize (Hfar _ Hc). rewrite near_same in Hfar by reflexivity. discriminate.
    + apply IH. now exists r.
Qed.

(** X15: once a report is saved, a chunk that passes through its location is
    tagged 'hazard' by the next routing, provided no static point lies within
    30 m of the chunk. *)
Theorem saved_report_marks_chunk (id timestamp : string) (r : ReportDraft)
        (item : StoredItem) (aPoints : list HazardPoint) (chunk : list coord) :
  In (rd_lat r, rd_lng r) chunk ->
  (forall h c, In h aPoints -> In c chunk -> 30 <= haversine c (hp_lat h, hp_lng h)) ->
  classifySeg chunk (combined aPoints (getReports (fst (saveReport id timestamp r item))))
  = hazard.
Proof.
  intros Hc Hfar. unfold combined.
  induction aPoints as [| h hs IH]; cbn [app].
  - apply classifySeg_reports_hazard.
    exists (snd (saveReport id timestamp r item)). split; [| exact Hc].
    cbn [saveReport fst snd getReports]. apply in_or_app. right. now left.
  - cbn [classifySeg]. rewrite scanCoords_None.
    + apply IH. intros h' c Hh'. apply Hfar. now right.
    + intros c Hcc. apply near_false_iff. apply Hfar; [now left | assumption].
Qed.

Lemma saved_report_marks_chunk_witness :
  classifySeg [origin]
    (combined [hazardAt antimeridian sev_info]
       (getReports
          (fst (saveReport "a1b2c3d4e" "2025-02-01T08:00:00.000Z" draftAtOrigin ItemUnparsable))))
  = hazard.
Proof.
  apply saved_report_marks_chunk.
  - now left.
  - intros h c [<- | []] [<- | []]. cbn [hazardAt hp_lat hp_lng antimeridian fst snd].
    change (0, 180) with antimeridian. rewrite haversine_far. pose proof PI_gt_3. lra.
Defined.

(** ** Route panel *)

Lemma Math_round_bounds (x : R) : x - 0.5 < IZR (Math_round x) <= x + 0.5.
Proof.
  unfold Math_round. pose proof (base_Int_part (x + 0.5)) as [H1 H2]. lra.
Qed.

Lemma Math_round_ge (x : R) (z : Z) : (z <= Math_round x)%Z <-> IZR z - 0.5 <= x.
Proof.
  pose proof (Math_round_bounds x) as [H1 H2]. split; intros H.
  - apply IZR_le in H. lra.
  - apply Z.lt_succ_r. apply lt_IZR. rewrite succ_IZR. lra.
Qed.

Lemma panelCount_pos (segs : list RouteSegment) : 0 < INR (panelCount segs).
Proof.
  unfold panelCount. destruct segs as [| s segs]; cbn [length Nat.eqb].
  - cbn. lra.
  - apply lt_0_INR. lia.
Qed.

Lemma percent_gt (t : Accessibility) (segs : list RouteSegment) (p q : nat) :
  (forall x : R, IZR (Z.of_nat p) + 1 - 0.5 <= x * 100 <-> INR q <= x * 200) ->
  (Z.of_nat p <? tagPercent t segs)%Z = true <->
  (q * panelCount segs <= 200 * countTag t segs)%nat.
Proof.
  intros Hq. unfold tagPercent.
  pose proof (panelCount_pos segs) as Hn.
  rewrite Z.ltb_lt, <- Z.le_succ_l, Math_round_ge, succ_IZR.
  set (c := countTag t segs). set (n := panelCount segs) in *.
  rewrite (Hq (INR c / INR n)).
  assert (E : INR c / INR n * 200 * INR n = 200 * INR c) by (field; lra).
  split; intros H.
  - apply INR_le. rewrite !mult_INR. change (INR 200) with (IZR 200) || idtac.
    replace (INR 200) with 200 by (rewrite INR_IZR_INZ; reflexivity). nra.
  - apply le_INR in H. rewrite !mult_INR in H.
    replace (INR 200) with 200 in H by (rewrite INR_IZR_INZ; reflexivity).
    apply Rmult_le_reg_r with (INR n); [assumption |]. nra.
Qed.

Lemma tagPercent_ratio (t : Accessibility) (segs : list RouteSegment) :
  segs <> [] -> tagPercent t segs = Math_round (tagRatio t segs * 100).
Proof.
  intros H. unfold tagPercent, tagRatio, panelCount.
  destruct segs; [contradiction | reflexivity].
Qed.

Lemma tagRatio_le_1 (t : Accessibility) (segs : list RouteSegment) :
  segs <> [] -> tagRatio t segs <= 1.
Proof.
  intros H. pose proof (tagRatio_total segs H).
  pose proof (tagRatio_nonneg safe segs H). pose proof (tagRatio_nonneg caution segs H).
  pose proof (tagRatio_nonneg hazard segs H). destruct t; lra.
Qed.

(** X16: for a route with at least one segment each displayed percentage
    lies between 0 and 100, and the three add up to 99, 100 or 101. *)
Theorem tagPercent_sum (segs : list RouteSegment) :
  segs <> [] ->
  (forall t, (0 <= tagPercent t segs <= 100)%Z) /\
  (99 <= tagPercent safe segs + tagPercent caution segs + tagPercent hazard segs <= 101)%Z.
Proof.
  intros H. split.
  - intros t. rewrite tagPercent_ratio by assumption.
    pose proof (Math_round_bounds (tagRatio t segs * 100)) as [H1 H2].
    pose proof (tagRatio_nonneg t segs H). pose proof (tagRatio_le_1 t segs H).
    split.
    + apply Z.lt_succ_r, lt_IZR. rewrite succ_IZR. lra.
    + apply Z.lt_succ_r, lt_IZR. rewrite succ_IZR. lra.
  - rewrite !tagPercent_ratio by assumption.
    pose proof (Math_round_bounds (tagRatio safe segs * 100)) as [S1 S2].
    pose proof (Math_round_bounds (tagRatio caution segs * 100)) as [C1 C2].
    pose proof (Math_round_bounds (tagRatio hazard segs * 100)) as [Z1 Z2].
    pose proof (tagRatio_total segs H) as Ht.
    set (sp := Math_round (tagRatio safe segs * 100)) in *.
    set (cp := Math_round (tagRatio caution segs * 100)) in *.
    set (hp := Math_round (tagRatio hazard segs * 100)) in *.
    assert (Hlo : (98 < sp + cp + hp)%Z) by (apply lt_IZR; rewrite !plus_IZR; lra).
    assert (Hhi : (sp + cp + hp < 102)%Z) by (apply lt_IZR; rewrite !plus_IZR; lra).
    lia.
Qed.

Lemma tagPercent_sum_witness :
  (99 <= tagPercent safe [segOf safe; segOf caution; segOf hazard]
         + tagPercent caution [segOf safe; segOf caution; segOf hazard]
         + tagPercent hazard [segOf safe; segOf caution; segOf hazard] <= 101)%Z.
Proof.
  apply (tagPercent_sum [segOf safe; segOf caution; segOf hazard]). discriminate.
Defined.

Lemma hazard_percent_gt_30 (segs : list RouteSegment) :
  (30 <? tagPercent hazard segs)%Z = true <->
  (61 * panelCount segs <= 200 * countTag hazard segs)%nat.
Proof.
  apply (percent_gt hazard segs 30 61). intros x.
  replace (INR 61) with 61 by (rewrite INR_IZR_INZ; reflexivity).
  change (Z.of_nat 30) with 30%Z. lra.
Qed.

Lemma caution_percent_gt_40 (segs : list RouteSegment) :
  (40 <? tagPercent caution segs)%Z = true <->
  (81 * panelCount segs <= 200 * countTag caution segs)%nat.
Proof.
  apply (percent_gt caution segs 40 81). intros x.
  replace (INR 81) with 81 by (rewrite INR_IZR_INZ; reflexivity).
  change (Z.of_nat 40) with 40%Z. lra.
Qed.

(** X17: the headline of the route panel in terms of segment counts, [n]
    being the number of segments (1 for none): 'Difficult Route' exactly when
    hazard segments are at least 30.5 % of [n], otherwise 'Moderate Access'
    exactly when caution segments are at least 40.5 % of [n], otherwise
    'Fully Accessible'; a route without segments is 'Fully Accessible'. *)
Theorem overallLabel_by_counts (segs : list RouteSegment) :
  let n := panelCount segs in
  let hc := countTag hazard segs in
  let cc := countTag caution segs in
  (overallLabel segs = "Difficult Route"%string <-> (61 * n <= 200 * hc)%nat) /\
  (overallLabel segs = "Moderate Access"%string <->
     (200 * hc < 61 * n)%nat /\ (81 * n <= 200 * cc)%nat) /\
  (overallLabel segs = "Fully Accessible"%string <->
     (200 * hc < 61 * n)%nat /\ (200 * cc < 81 * n)%nat) /\
  overallLabel [] = "Fully Accessible"%string.
Proof.
  intros n hc cc.
  assert (Hempty : overallLabel [] = "Fully Accessible"%string).
  { unfold overallLabel.
    destruct (30 <? tagPercent hazard [])%Z eqn:E1;
      [apply hazard_percent_gt_30 in E1; cbn in E1; lia |].
    destruct (40 <? tagPercent caution [])%Z eqn:E2;
      [apply caution_percent_gt_40 in E2; cbn in E2; lia |].
    reflexivity. }
  pose proof (hazard_percent_gt_30 segs) as Hh. pose proof (caution_percent_gt_40 segs) as Hc.
  fold n hc in Hh. fold n cc in Hc. unfold overallLabel.
  destruct (30 <? tagPercent hazard segs)%Z.
  - assert (Fh : (61 * n <= 200 * hc)%nat) by (now apply Hh).
    repeat split; try assumption; try reflexivity; intros; try discriminate; lia.
  - assert (Fh : (200 * hc < 61 * n)%nat).
    { destruct (le_lt_dec (61 * n) (200 * hc)) as [L | L]; [| exact L].
      apply Hh in L. discriminate. }
    destruct (40 <? tagPercent caution segs)%Z.
    + assert (Fc : (81 * n <= 200 * cc)%nat) by (now apply Hc).
      repeat split; try assumption; try reflexivity; intros; try discriminate; lia.
    + assert (Fc : (200 * cc < 81 * n)%nat).
      { destruct (le_lt_dec (81 * n) (200 * cc)) as [L | L]; [| exact L].
        apply Hc in L. discriminate. }
      repeat split; try assumption; try reflexivity; intros; try discriminate; lia.
Qed.

(** ** Scoring: warnings against the estimate *)

Lemma buildWarnings_generic_only (segs : list RouteSegment) :
  buildWarnings segs = [genericAdvisory] ->
  countTag hazard segs = 0%nat /\ countTag caution segs = 0%nat.
Proof.
  rewrite buildWarnings_cases.
  destruct (countTag hazard segs) as [| hc]; destruct (countTag caution segs) as [| cc];
    cbn [Nat.ltb Nat.leb app]; intros H; try discriminate; now split.
Qed.

Lemma estimateTime_no_barrier (d : R) (segs : list RouteSegment) :
  countTag hazard segs = 0%nat -> countTag caution segs = 0%nat -> estimateTime d segs = d.
Proof.
  intros Hh Hc. destruct segs as [| s segs]; [apply estimateTime_nil |].
  rewrite estimateTime_cons by discriminate.
  pose proof (countTag_total (s :: segs)) as Ht. rewrite Hh, Hc in Ht.
  assert (Hn : 0 < INR (length (s :: segs))) by (apply length_pos_INR; discriminate).
  assert (Hf : speedFactor (s :: segs) = 1).
  { unfold speedFactor, tagRatio. rewrite Hh, Hc.
    replace (countTag safe (s :: segs)) with (length (s :: segs)) by lia.
    assert (E : INR (length (s :: segs)) / INR (length (s :: segs)) = 1) by (field; lra).
    rewrite E. change (INR 0) with 0. unfold Rdiv. rewrite !Rmult_0_l. lra. }
  rewrite Hf, Rmax_left by lra. lra.
Qed.

(** X21: when a result carries no warning but the generic advisory, its
    estimated time equals its distance; so an estimate above the distance
    always comes with a hazard or caution line. *)
Theorem warnings_match_estimate (coords : list coord) (dist : R) (hazards : list HazardPoint) :
  let r := buildResult coords dist hazards in
  (warnings r = ["Verify accessibility features on ground"%string] ->
   estimatedTime r = totalDistance r) /\
  (estimatedTime r <> totalDistance r -> (2 <= length (warnings r))%nat).
Proof.
  intros r.
  assert (H1 : warnings r = [genericAdvisory] -> estimatedTime r = totalDistance r).
  { intros H. apply buildWarnings_generic_only in H as [Hh Hc].
    now apply estimateTime_no_barrier. }
  split; [exact H1 |].
  intros Hne. change (warnings r) with (buildWarnings (segments r)).
  rewrite buildWarnings_cases.
  destruct (countTag hazard (segments r)) as [| hc] eqn:Eh;
    destruct (countTag caution (segments r)) as [| cc] eqn:Ec;
    cbn [Nat.ltb Nat.leb app length]; try lia.
  exfalso. apply Hne. now apply estimateTime_no_barrier.
Qed.

Lemma warnings_match_estimate_witness :
  estimatedTime (buildResult path7 6 []) = totalDistance (buildResult path7 6 []).
Proof.
  apply (warnings_match_estimate path7 6 []).
  change (warnings (buildResult path7 6 [])) with (buildWarnings (segments (buildResult path7 6 []))).
  rewrite buildWarnings_cases, !countTag_map.
  assert (E : map accessibility (segments (buildResult path7 6 [])) = [safe; safe])
    by reflexivity.
  rewrite E. reflexivity.
Defined.

(** ** Report creation: further properties *)

Module BackendOutcome.
Import Backend.

(** X18: [createReport] answers 400 exactly when a required field is missing
    or falsy, 201 exactly when the fields are there and the INSERT returns,
    500 exactly when the fields are there and the INSERT throws.  A rejected
    request leaves the store alone and issues no query; an accepted one
    issues the one INSERT, with the photo's URL (or null), longitude before
    latitude, and the store is what that query leaves; the 201 body carries
    the first returned row. *)
Theorem createReport_outcome (Store Row : Type)
        (pool_query : Store -> list JsValue -> Store * option (list Row))
        (st : Store) (req : Request) :
  let b := body req in
  let o := createReport pool_query st req in
  let params :=
    [ (if truthy (user_id b) then user_id b else JsNull); issue_type b; description b;
      match file req with Some filename => getUrl filename | None => JsNull end;
      lng b; lat b ] in
  (status (response o) = 400%nat <-> missingField b = true) /\
  (status (response o) = 201%nat <->
     missingField b = false /\ exists rows, snd (pool_query st params) = Some rows) /\
  (status (response o) = 500%nat <->
     missingField b = false /\ snd (pool_query st params) = None) /\
  (missingField b = true -> store o = st /\ queries o = []) /\
  (missingField b = false -> store o = fst (pool_query st params) /\ queries o = [params]) /\
  (forall rows, missingField b = false -> snd (pool_query st params) = Some rows ->
                json (response o) = ReportJson (nth_error rows 0)).
Proof.
  intros b o params. unfold o, createReport. cbv zeta. fold b. fold params.
  change (negb (truthy (issue_type b)) || negb (truthy (description b))
          || negb (truthy (lat b)) || negb (truthy (lng b))) with (missingField b).
  destruct (missingField b).
  - cbn [response status store queries json].
    repeat split; intros; try reflexivity; try discriminate;
      try (destruct H; discriminate).
  - destruct (pool_query st params) as [st' [rows |]]; cbn [response status store queries json fst snd].
    + repeat split; intros; try reflexivity; try discriminate.
      * now exists rows.
      * destruct H; discriminate.
      * congruence.
    + repeat split; intros; try reflexivity; try discriminate.
      * destruct H as [_ [rows Hr]]. discriminate.
Qed.

Lemma createReport_outcome_witness :
  status (response (createReport sampleQuery [] missingLat)) = 400%nat /\
  store (createReport sampleQuery [] missingLat) = [] /\
  status (response (createReport sampleQuery []
    (mkRequest (mkReqBody JsUndefined (JsStr "pothole") (JsStr "Deep hole at the gate")
                          (JsNum (Num (276196 # 10000))) (JsNum (Num (855385 # 10000))))
               (Some "1730-gate.jpg"%string)))) = 201%nat.
Proof.
  destruct (createReport_outcome _ _ sampleQuery [] missingLat) as (H1 & _ & _ & H4 & _).
  split; [apply H1; reflexivity |]. split; [apply H4; reflexivity |].
  match goal with
  | |- context [createReport sampleQuery [] ?r] =>
      destruct (createReport_outcome _ _ sampleQuery [] r) as (_ & H2 & _)
  end.
  apply H2. split; [reflexivity |]. eexists. reflexivity.
Defined.

End BackendOutcome.

(** ** Classification: static points against reports *)

Lemma classifySeg_app_matched (chunk : list coord) (hs more : list HazardPoint) :
  (exists h c, In h hs /\ In c chunk /\ near c h = true) ->
  classifySeg chunk (hs ++ more) = classifySeg chunk hs.
Proof.
  induction hs as [| h hs IH]; intros (h0 & c & Hh & Hc & Hn); [destruct Hh |].
  cbn [app classifySeg].
  destruct (scanCoords_cases h chunk) as [(-> & _) | (-> & Hfar)]; [reflexivity |].
  apply IH. destruct Hh as [-> | Hh].
  - rewrite (Hfar c Hc) in Hn. discriminate.
  - now exists h0, c.
Qed.

Lemma classifySeg_app_unmatched (chunk : list coord) (hs more : list HazardPoint) :
  (forall h c, In h hs -> In c chunk -> near c h = false) ->
  classifySeg chunk (hs ++ more) = classifySeg chunk more.
Proof.
  induction hs as [| h hs IH]; intros Hfar; [reflexivity |].
  cbn [app classifySeg]. rewrite scanCoords_None.
  - apply IH. intros h' c Hh'. apply Hfar. now right.
  - intros c Hc. apply Hfar; [now left | assumption].
Qed.

Lemma classifySeg_reports_safe (chunk : list coord) (reports : list IssueReport) :
  (forall r c, In r reports -> In c chunk -> 30 <= haversine c (ir_lat r, ir_lng r)) ->
  classifySeg chunk (map hazardOfReport reports) = safe.
Proof.
  intros H. apply classifySeg_none_near. intros h c Hh Hc.
  apply in_map_iff in Hh as (r & <- & Hr). apply near_false_iff.
  cbn [hazardOfReport hp_lat hp_lng]. now apply H.
Qed.

Lemma classifySeg_reports_near (chunk : list coord) (reports : list IssueReport) :
  (exists r c, In r reports /\ In c chunk /\ haversine c (ir_lat r, ir_lng r) < 30) ->
  classifySeg chunk (map hazardOfReport reports) = hazard.
Proof.
  induction reports as [| x reports IH]; intros (r & c & Hr & Hc & Hlt); [destruct Hr |].
  cbn [map classifySeg].
  destruct (scanCoords_cases (hazardOfReport x) chunk) as [(-> & _) | (-> & Hfar)];
    [reflexivity |].
  destruct Hr as [-> | Hr].
  - specialize (Hfar c Hc). apply near_false_iff in Hfar.
    cbn [hazardOfReport hp_lat hp_lng] in Hfar. lra.
  - apply IH. now exists r, c.
Qed.

(** X22: when some static point, of whatever severity, lies less than 30 m
    from a chunk, the reports have no influence on the chunk's tag; when no
    static point does, the tag is 'hazard' if a report lies less than 30 m
    from the chunk and 'safe' if none does. *)
Theorem reports_against_static_points (chunk : list coord) (aPoints : list HazardPoint)
        (reports : list IssueReport) :
  ((exists h c, In h aPoints /\ In c chunk /\ haversine c (hp_lat h, hp_lng h) < 30) ->
   classifySeg chunk (combined aPoints reports) = classifySeg chunk aPoints) /\
  ((forall h c, In h aPoints -> In c chunk -> 30 <= haversine c (hp_lat h, hp_lng h)) ->
   ((exists r c, In r reports /\ In c chunk /\ haversine c (ir_lat r, ir_lng r) < 30) ->
    classifySeg chunk (combined aPoints reports) = hazard) /\
   ((forall r c, In r reports -> In c chunk -> 30 <= haversine c (ir_lat r, ir_lng r)) ->
    classifySeg chunk (combined aPoints reports) = safe)).
Proof.
  unfold combined. split.
  - intros (h & c & Hh & Hc & Hlt). apply classifySeg_app_matched.
    exists h, c. repeat split; try assumption. now apply near_iff.
  - intros Hfar.
    assert (E : classifySeg chunk (aPoints ++ map hazardOfReport reports) =
                classifySeg chunk (map hazardOfReport reports)).
    { apply classifySeg_app_unmatched. intros h c Hh Hc. apply near_false_iff. now apply Hfar. }
    rewrite E. split.
    + apply classifySeg_reports_near.
    + apply classifySeg_reports_safe.
Qed.

Lemma reports_against_static_points_witness :
  classifySeg rampChunk (combined getKUAccessibilityPoints [reportAtRamp]) =
  classifySeg rampChunk getKUAccessibilityPoints.
Proof.
  apply (reports_against_static_points rampChunk getKUAccessibilityPoints [reportAtRamp]).
  exists (mkHazardPoint (27.6196 + 0.0010) (85.5385 + 0.0005) sev_info "ramp" "♿"
                        "Accessible ramp — Main Gate entrance"), rampPoint.
  split; [now left |]. split; [now left |].
  cbn [hp_lat hp_lng].
  replace (27.6196 + 0.0010, 85.5385 + 0.0005) with rampPoint
    by (unfold rampPoint; f_equal; lra).
  rewrite haversine_refl_aux. lra.
Defined.
